(** * Shapes: perimeter and area of circles, triangles and rectangles

    A shallow embedding of [func.go] (package [shapes]).  Go's [float64] is
    IEEE 754 binary64; it is modelled by Rocq's primitive [float], whose
    operations are the same binary64 operations (round to nearest, ties to
    even) and whose meaning is given by [SpecFloat] through [FloatAxioms].
    [math.Sqrt] is the correctly rounded square root.  None of the six
    methods contains a product followed by a sum, so no fused
    multiply-add can change a result; the payload of a not-a-number value
    is not tracked.

    The file has three layers: the methods as written ([Shapes]), facts
    about binary64 rounding read off the definitions of [SpecFloat]
    ([Binary64Facts], [RealFacts]), and the properties of the shapes. *)

From Stdlib Require Import QArith Reals Qreals Lra.
From Stdlib Require Import ZArith Bool List Permutation Lia Floats.
Import ListNotations.

Module Shapes.

Local Open Scope float_scope.

(** [math.Pi], converted to [float64]: the binary64 number nearest to
    3.14159265358979323846264338327950288419716939937510582097494459. *)
Definition Pi : float := 0x1.921fb54442d18p+1.

(** [type Circle struct { Radius float64 }] *)
Record Circle : Set := { Radius : float }.

(** [type Triangle struct { A, B, C float64 }] *)
Record Triangle : Set := { A : float; B : float; C : float }.

(** [type Rectangle struct { Width, Height float64 }] *)
Record Rectangle : Set := { Width : float; Height : float }.

(** [type Shape interface { Perimeter() float64; Area() float64 }] *)
Class Shape (T : Type) : Type := {
  Perimeter : T -> float;
  Area : T -> float
}.

(** [func (c Circle) Perimeter() float64].  The constant expression
    [2 * math.Pi] is evaluated exactly and then converted to [float64];
    doubling is exact in binary64, so this is the product [2 * Pi]. *)
Definition Circle_Perimeter (c : Circle) : float :=
  2 * Pi * Radius c.

(** [func (c Circle) Area() float64] *)
Definition Circle_Area (c : Circle) : float :=
  Pi * Radius c * Radius c.

(** [func (t Triangle) Perimeter() float64] *)
Definition Triangle_Perimeter (t : Triangle) : float :=
  A t + B t + C t.

(** [func (t Triangle) Area() float64] *)
Definition Triangle_Area (t : Triangle) : float :=
  let p := Triangle_Perimeter t / 2 in
  sqrt (p * (p - A t) * (p - B t) * (p - C t)).

(** [func (r Rectangle) Perimeter() float64] *)
Definition Rectangle_Perimeter (r : Rectangle) : float :=
  2 * (Width r + Height r).

(** [func (r Rectangle) Area() float64] *)
Definition Rectangle_Area (r : Rectangle) : float :=
  Width r * Height r.

#[export] Instance Circle_Shape : Shape Circle :=
  {| Perimeter := Circle_Perimeter; Area := Circle_Area |}.

#[export] Instance Triangle_Shape : Shape Triangle :=
  {| Perimeter := Triangle_Perimeter; Area := Triangle_Area |}.

#[export] Instance Rectangle_Shape : Shape Rectangle :=
  {| Perimeter := Rectangle_Perimeter; Area := Rectangle_Area |}.

(** A value of interface type [Shape]: one of the three implementers. *)
Inductive AnyShape : Set :=
  | OfCircle (c : Circle)
  | OfTriangle (t : Triangle)
  | OfRectangle (r : Rectangle).

#[export] Instance AnyShape_Shape : Shape AnyShape := {|
  Perimeter s :=
    match s with
    | OfCircle c => Perimeter c
    | OfTriangle t => Perimeter t
    | OfRectangle r => Perimeter r
    end;
  Area s :=
    match s with
    | OfCircle c => Area c
    | OfTriangle t => Area t
    | OfRectangle r => Area r
    end
|}.






(** The field values of a shape, in declaration order. *)
Definition fields (s : AnyShape) : list float :=
  match s with
  | OfCircle c => [Radius c]
  | OfTriangle t => [A t; B t; C t]
  | OfRectangle r => [Width r; Height r]
  end.

(** The semi-perimeter [p := t.Perimeter() / 2] of [Triangle.Area]. *)
Definition semi (t : Triangle) : float := Triangle_Perimeter t / 2.

(** The argument that [Triangle.Area] passes to [math.Sqrt]. *)
Definition radicand (t : Triangle) : float :=
  semi t * (semi t - A t) * (semi t - B t) * (semi t - C t).

(** The product of the first three Heron factors, [p * (p-a) * (p-b)]. *)
Definition partial_product (t : Triangle) : float :=
  semi t * (semi t - A t) * (semi t - B t).

(** Two triangles have the same three side lengths, in any order. *)
Definition sides_permuted (t t' : Triangle) : Prop :=
  Permutation [A t; B t; C t] [A t'; B t'; C t'].

(** Go's [x >= 0] on every side. *)
Definition nonneg_sides (t : Triangle) : bool :=
  (0 <=? A t) && (0 <=? B t) && (0 <=? C t).

(** Go's [x > 0] on every side. *)
Definition positive_sides (t : Triangle) : bool :=
  (0 <? A t) && (0 <? B t) && (0 <? C t).

(** No side is an infinity or a not-a-number. *)
Definition finite_sides (t : Triangle) : bool :=
  is_finite (A t) && is_finite (B t) && is_finite (C t).

(** The tolerance [0.001] of [func_tests.go], as a [float64]. *)
Definition tolerance : float := 0x1.0624dd2f1a9fcp-10.

(** [math.Abs(got-want) > 0.001] is the failure condition of the tests. *)
Definition within_tolerance (got want : float) : bool :=
  abs (got - want) <=? tolerance.

(** The two failure conditions as the tests of [func_tests.go] write
    them: [math.Abs(got-want) > 0.001] and [got != want]. *)
Definition exceeds_tolerance (got want : float) : bool :=
  tolerance <? abs (got - want).

Definition differs (got want : float) : bool := negb (got =? want).

End Shapes.

(** ** Reading binary64 values through [SpecFloat] *)

Module Binary64.

Local Open Scope Z_scope.

(** The exponent function of binary64. *)
Abbreviation fexp64 := (SpecFloat.fexp prec emax).

(** The record left by [n] one-bit right shifts of an exact mantissa [m]:
    the quotient, the round bit and the sticky bit. *)
Definition shifted (m n : Z) : shr_record :=
  Build_shr_record (m / 2 ^ n) (2 ^ (n - 1) <=? m mod 2 ^ n)
                   (negb (m mod 2 ^ (n - 1) =? 0)).

(** The mantissa kept by round-to-nearest-even after dropping [n] bits. *)
Definition round_shift (m n : Z) : Z :=
  round_nearest_even (shr_m (shifted m n)) (loc_of_shr_record (shifted m n)).

(** The last step of [binary_round_aux]: package mantissa and exponent. *)
Definition finish (s : bool) (m e : Z) : spec_float :=
  match m with
  | Z0 => S754_zero s
  | Zpos p => if e <=? emax - prec then S754_finite s p e else S754_infinity s
  | Zneg _ => S754_nan
  end.

(** Neither an infinity nor a not-a-number. *)
Definition SFfinite (x : spec_float) : bool :=
  match x with
  | S754_zero _ | S754_finite _ _ _ => true
  | S754_infinity _ | S754_nan => false
  end.

Definition SFnan (x : spec_float) : bool :=
  match x with
  | S754_nan => true
  | _ => false
  end.

Definition SFzero (x : spec_float) : bool :=
  match x with
  | S754_zero _ => true
  | _ => false
  end.

(** The constant [2] by which [Triangle.Area] divides. *)
Definition SFtwo : spec_float := S754_finite false 4503599627370496 (-51).

(** Heron's formula on [SpecFloat] values: every operation is the
    correctly rounded binary64 one, in the order of the formula. *)
Definition SFheron (a b c : spec_float) : spec_float :=
  let p := SF64div (SF64add (SF64add a b) c) SFtwo in
  SF64sqrt
    (SF64mul (SF64mul (SF64mul p (SF64sub p a)) (SF64sub p b)) (SF64sub p c)).

(** Finite and not negative (either zero counts). *)
Definition SFnonneg (x : spec_float) : bool :=
  match x with
  | S754_zero _ | S754_finite false _ _ => true
  | _ => false
  end.

(** The real number denoted by a binary64 value; zero for the infinities
    and not-a-number. *)
Definition SF2R (x : spec_float) : R :=
  match x with
  | S754_finite s m e => (IZR (cond_Zopp s (Zpos m)) * powerRZ 2 e)%R
  | _ => 0%R
  end.

Definition F2R (x : float) : R := SF2R (Prim2SF x).

(** A binary64 result [got] approximates the real number [exact]: it is
    finite and at most [tol] away. *)
Definition approx (got : float) (exact tol : R) : Prop :=
  is_finite got = true /\ (Rabs (F2R got - exact) <= tol)%R.

(** The sides of a triangle do not satisfy the triangle inequality: as
    real numbers, one side is longer than the other two together. *)
Definition violates_triangle_inequality (t : Shapes.Triangle) : Prop :=
  (F2R (Shapes.A t) + F2R (Shapes.B t) < F2R (Shapes.C t) \/
   F2R (Shapes.A t) + F2R (Shapes.C t) < F2R (Shapes.B t) \/
   F2R (Shapes.B t) + F2R (Shapes.C t) < F2R (Shapes.A t))%R.

(** The Heron radicand [p*(p-a)*(p-b)*(p-c)] of the sides in exact
    arithmetic, with [p = (a+b+c)/2]. *)
Definition exact_radicand (t : Shapes.Triangle) : R :=
  let a := F2R (Shapes.A t) in
  let b := F2R (Shapes.B t) in
  let c := F2R (Shapes.C t) in
  let p := ((a + b + c) / 2)%R in
  (p * (p - a) * (p - b) * (p - c))%R.

(** The same value, or two zeros: what [==] on [float64] cannot tell
    apart, not-a-number aside. *)
Definition SFsame_or_zeros (x y : spec_float) : Prop :=
  x = y \/ (SFzero x = true /\ SFzero y = true).

(** The sign bit of a binary64 value, when it has one. *)
Definition SFsignbit (x : spec_float) : option bool :=
  match x with
  | S754_nan => None
  | S754_zero s | S754_infinity s | S754_finite s _ _ => Some s
  end.

(** Not negative: a zero of either sign, a positive number or [+Inf]. *)
Definition SFnot_negative (x : spec_float) : bool :=
  match x with
  | S754_zero _ | S754_finite false _ _ | S754_infinity false => true
  | _ => false
  end.

End Binary64.

(** ** Rational partial sums of Machin's series
    [pi/4 = 2 atan(1/3) + atan(1/7)] *)

Module PiSeries.

Fixpoint Qpow (x : Q) (n : nat) : Q :=
  match n with
  | O => 1
  | S k => x * Qpow x k
  end.

Definition Qatan_seq (x : Q) (n : nat) : Q :=
  Qpow x (2 * n + 1) / inject_Z (Z.of_nat (2 * n + 1)).

Definition Qmachin_tg (n : nat) : Q :=
  Qpow (-1) n * (2 * Qatan_seq (1 # 3) n + Qatan_seq (1 # 7) n).

Fixpoint Qmachin_sum (N : nat) : Q :=
  match N with
  | O => Qmachin_tg 0
  | S i => Qmachin_sum i + Qmachin_tg (S i)
  end.

(** [math.Pi] as a rational number. *)
Definition Pi_Q : Q := 7074237752028440 # 2251799813685248.

(** The digits of the constant [Pi] of Go's package [math], as an integer:
    [Pi = math_Pi_digits / 10^62]. *)
Definition math_Pi_digits : Z :=
  314159265358979323846264338327950288419716939937510582097494459.

End PiSeries.

(** * Facts about binary64 rounding *)

Module Binary64Facts.

Import Binary64.
Local Open Scope Z_scope.

(** Split on every integer comparison left in the goal. *)
Ltac case_bool :=
  repeat match goal with
  | |- context [(?u =? ?v)%Z] => destruct (Z.eqb_spec u v)
  | |- context [(?u <=? ?v)%Z] => destruct (Z.leb_spec u v)
  end;
  cbn [negb orb andb]; try reflexivity.

(** ** Right shifts

    [shr] iterates the one-bit shift [shr_1]; on an exact non-negative
    mantissa the outcome is [shifted]. *)

(** [iter_pos] is plain iteration. *)
Lemma iter_pos_nat {T : Type} (f : T -> T) (p : positive) (x : T) :
  iter_pos f p x = Nat.iter (Pos.to_nat p) f x.
Proof.
  revert x. induction p as [p IH | p IH |]; intros x; cbn [iter_pos].
  - rewrite !IH, Pos2Nat.inj_xI, <- Nat.iter_succ_r, <- Nat.iter_add.
    f_equal. lia.
  - rewrite !IH, Pos2Nat.inj_xO, <- Nat.iter_add. f_equal. lia.
  - reflexivity.
Qed.

(** One shift halves the mantissa, moves its last bit into the round bit
    and folds the old round bit into the sticky bit. *)
Lemma shr_1_nonneg (m : Z) (r s : bool) :
  0 <= m ->
  shr_1 (Build_shr_record m r s) =
  Build_shr_record (m / 2) (Z.odd m) (r || s).
Proof.
  intros Hm. destruct m as [| [p | p |] | p]; try lia; cbn [shr_1].
  - reflexivity.
  - f_equal. rewrite Pos2Z.inj_xI. apply Z.div_unique with 1; lia.
  - f_equal. rewrite Pos2Z.inj_xO. apply Z.div_unique with 0; lia.
  - reflexivity.
Qed.

Lemma mod_pow2_succ (m n : Z) :
  0 <= n -> m mod 2 ^ (n + 1) = m mod 2 ^ n + 2 ^ n * ((m / 2 ^ n) mod 2).
Proof.
  intros Hn. rewrite Z.pow_add_r, Z.pow_1_r by lia.
  apply Z.rem_mul_r; lia.
Qed.

Lemma iter_shr_1 (m : Z) (n : nat) :
  0 <= m ->
  Nat.iter (S n) shr_1 (Build_shr_record m false false) =
  shifted m (Z.of_nat (S n)).
Proof.
  intros Hm. induction n as [| n IH].
  - cbn [Nat.iter nat_rect]. rewrite shr_1_nonneg by assumption.
    unfold shifted. change (Z.of_nat 1) with 1. 
    rewrite Z.pow_1_r. change (2 ^ (1 - 1)) with 1. rewrite Z.mod_1_r.
    f_equal. pose proof (Zmod_odd m) as O.
    destruct (Z.odd m), (Z.leb_spec 1 (m mod 2)); lia.
  - rewrite Nat.iter_succ, IH. unfold shifted.
    assert (Hp : 0 < 2 ^ Z.of_nat (S n)) by (apply Z.pow_pos_nonneg; lia).
    rewrite shr_1_nonneg by (apply Z.div_pos; lia).
    replace (Z.of_nat (S (S n))) with (Z.of_nat (S n) + 1) by lia.
    replace (Z.of_nat (S n) + 1 - 1) with (Z.of_nat (S n)) by lia.
    set (k := Z.of_nat (S n)) in *.
    assert (Hk : 1 <= k) by lia. clearbody k.
    pose proof (mod_pow2_succ m k ltac:(lia)) as E1.
    pose proof (mod_pow2_succ m (k - 1) ltac:(lia)) as E0.
    replace (k - 1 + 1) with k in E0 by lia.
    pose proof (Z.mod_pos_bound m (2 ^ k) Hp) as B1.
    assert (Hq : 0 < 2 ^ (k - 1)) by (apply Z.pow_pos_nonneg; lia).
    pose proof (Z.mod_pos_bound m (2 ^ (k - 1)) Hq) as B0.
    pose proof (Z.mod_pos_bound (m / 2 ^ k) 2 ltac:(lia)) as B2.
    pose proof (Z.mod_pos_bound (m / 2 ^ (k - 1)) 2 ltac:(lia)) as B3.
    f_equal.
    + rewrite Z.pow_add_r, Z.pow_1_r, Z.div_div by lia. reflexivity.
    + rewrite E1. pose proof (Zmod_odd (m / 2 ^ k)) as O.
      destruct (Z.odd (m / 2 ^ k)); rewrite O; case_bool; lia.
    + rewrite E0. pose proof (Zmod_odd (m / 2 ^ (k - 1))) as O.
      destruct (Z.odd (m / 2 ^ (k - 1))); rewrite O; case_bool; lia.
Qed.

Lemma shr_exact_pos (m e : Z) (p : positive) :
  0 <= m ->
  shr (Build_shr_record m false false) e (Zpos p) =
  (shifted m (Zpos p), e + Zpos p).
Proof.
  intros Hm. unfold shr. rewrite iter_pos_nat.
  destruct (Pos2Nat.is_succ p) as [n Hn]. rewrite Hn, iter_shr_1 by assumption.
  rewrite <- Hn, positive_nat_Z. reflexivity.
Qed.

(** ** Number of binary digits *)

Lemma pow2_pred (d : Z) : 0 < d -> 2 ^ d = 2 * 2 ^ (d - 1).
Proof.
  intros Hd. rewrite <- Z.pow_succ_r by lia. f_equal. lia.
Qed.

Lemma digits2_pos_bounds (m : positive) :
  2 ^ (Zpos (digits2_pos m) - 1) <= Zpos m < 2 ^ Zpos (digits2_pos m).
Proof.
  induction m as [m IH | m IH |]; cbn [digits2_pos]; [| | cbn; lia];
    rewrite Pos2Z.inj_succ;
    pose proof (Pos2Z.is_pos (digits2_pos m)) as Hd;
    generalize dependent (Zpos (digits2_pos m)); intros d IH Hd;
    replace (Z.succ d - 1) with d by lia;
    rewrite (pow2_pred (Z.succ d)) by lia;
    replace (Z.succ d - 1) with d by lia;
    pose proof (pow2_pred d Hd) as E;
    [rewrite (Pos2Z.inj_xI m) | rewrite (Pos2Z.inj_xO m)]; lia.
Qed.

Lemma digits2_pos_unique (m : positive) (d : Z) :
  2 ^ (d - 1) <= Zpos m < 2 ^ d -> Zpos (digits2_pos m) = d.
Proof.
  intros [Hl Hu]. pose proof (digits2_pos_bounds m) as [Gl Gu].
  assert (0 < d). { destruct (Z.ltb_spec 0 d); [assumption|]. 
    rewrite (Z.pow_neg_r 2 (d-1)) in Hl by lia. destruct d; try lia. cbn in Hu. lia. }
  destruct (Z.lt_trichotomy (Zpos (digits2_pos m)) d) as [L | [E | G]]; [| assumption |].
  - assert (2 ^ Zpos (digits2_pos m) <= 2 ^ (d - 1)) by (apply Z.pow_le_mono_r; lia). lia.
  - assert (2 ^ d <= 2 ^ (Zpos (digits2_pos m) - 1)) by (apply Z.pow_le_mono_r; lia). lia.
Qed.

(** ** Rounding to nearest, ties to even *)

Lemma fexp64_eq (x : Z) : fexp64 x = Z.max (x - 53) (-1074).
Proof. reflexivity. Qed.

Lemma shr_fexp_exact (m e : Z) :
  0 <= m ->
  shr_fexp prec emax m e loc_Exact =
  let n := fexp64 (Zdigits2 m + e) - e in
  if 0 <? n then (shifted m n, e + n)
  else (Build_shr_record m false false, e).
Proof.
  intros Hm. unfold shr_fexp. cbn [shr_record_of_loc]. cbv zeta.
  destruct (fexp64 (Zdigits2 m + e) - e) as [| p | p] eqn:E.
  - reflexivity.
  - now rewrite shr_exact_pos.
  - reflexivity.
Qed.

(** The rounded mantissa is the quotient or its successor, and at most
    half of [2^n] away from the exact value. *)
Lemma round_shift_bounds (m n : Z) :
  0 <= m -> 1 <= n ->
  m / 2 ^ n <= round_shift m n <= m / 2 ^ n + 1 /\
  - 2 ^ n <= 2 * (round_shift m n * 2 ^ n - m) <= 2 ^ n.
Proof.
  intros Hm Hn. unfold round_shift, shifted. cbn [shr_m loc_of_shr_record].
  assert (Hp : 0 < 2 ^ n) by (apply Z.pow_pos_nonneg; lia).
  assert (Hq : 0 < 2 ^ (n - 1)) by (apply Z.pow_pos_nonneg; lia).
  pose proof (pow2_pred n ltac:(lia)) as E.
  pose proof (Z.div_mod m (2 ^ n) ltac:(lia)) as D.
  pose proof (Z.mod_pos_bound m (2 ^ n) Hp) as B1.
  pose proof (Z.mod_pos_bound m (2 ^ (n - 1)) Hq) as B0.
  pose proof (mod_pow2_succ m (n - 1) ltac:(lia)) as E0.
  replace (n - 1 + 1) with n in E0 by lia.
  pose proof (Z.mod_pos_bound (m / 2 ^ (n - 1)) 2 ltac:(lia)) as B3.
  set (q := m / 2 ^ n) in *. set (rho := m mod 2 ^ n) in *.
  set (low := m mod 2 ^ (n - 1)) in *.
  set (bit := (m / 2 ^ (n - 1)) mod 2) in *.
  clearbody q rho low bit.
  destruct (Z.leb_spec (2 ^ (n - 1)) rho), (Z.eqb_spec low 0);
    cbn [negb round_nearest_even]; try destruct (Z.even q); nia.
Qed.

(** Nothing is lost when the dropped bits are all zero. *)
Lemma round_shift_exact (m n : Z) :
  0 <= m -> 1 <= n -> m mod 2 ^ n = 0 -> round_shift m n = m / 2 ^ n.
Proof.
  intros Hm Hn Hr. unfold round_shift, shifted. cbn [shr_m loc_of_shr_record].
  assert (Hq : 0 < 2 ^ (n - 1)) by (apply Z.pow_pos_nonneg; lia).
  pose proof (Z.mod_pos_bound m (2 ^ (n - 1)) Hq) as B0.
  pose proof (mod_pow2_succ m (n - 1) ltac:(lia)) as E0.
  replace (n - 1 + 1) with n in E0 by lia.
  pose proof (Z.mod_pos_bound (m / 2 ^ (n - 1)) 2 ltac:(lia)) as B3.
  rewrite Hr in *.
  assert (m mod 2 ^ (n - 1) = 0) as -> by nia.
  destruct (Z.leb_spec (2 ^ (n - 1)) 0); [lia | reflexivity].
Qed.

Lemma Zdigits2_le (m d : Z) : 0 <= m < 2 ^ d -> 0 <= d -> Zdigits2 m <= d.
Proof.
  intros [Hl Hu] Hd. destruct m as [| p | p]; cbn [Zdigits2]; try lia.
  pose proof (digits2_pos_bounds p) as [Gl _].
  destruct (Z.le_gt_cases (Zpos (digits2_pos p)) d) as [L | G]; [assumption |].
  assert (2 ^ d <= 2 ^ (Zpos (digits2_pos p) - 1)) by (apply Z.pow_le_mono_r; lia).
  lia.
Qed.

Lemma second_stage (s : bool) (m e : Z) :
  0 <= m -> fexp64 (Zdigits2 m + e) <= e ->
  (let '(mrs, e') := shr_fexp prec emax m e loc_Exact in
   finish s (shr_m mrs) e') = finish s m e.
Proof.
  intros Hm Hc. rewrite shr_fexp_exact by assumption. cbv zeta.
  destruct (Z.ltb_spec 0 (fexp64 (Zdigits2 m + e) - e)); [lia | reflexivity].
Qed.

Lemma second_stage_carry (s : bool) (e : Z) :
  -1074 <= e ->
  (let '(mrs, e') := shr_fexp prec emax (2 ^ 53) e loc_Exact in
   finish s (shr_m mrs) e') = finish s (2 ^ 52) (e + 1).
Proof.
  intros He. rewrite shr_fexp_exact by lia. cbv zeta.
  change (Zdigits2 (2 ^ 53)) with 54. rewrite fexp64_eq.
  replace (Z.max (54 + e - 53) (-1074) - e) with 1 by lia.
  reflexivity.
Qed.

(** [binary_round_aux] on an exact positive mantissa: shift down to the
    exponent [fexp64] asks for, round to nearest even, and renormalise
    when rounding carried into a 54th bit. *)
Lemma binary_round_aux_exact (s : bool) (m : positive) (e : Z) :
  binary_round_aux prec emax s (Zpos m) e loc_Exact =
  let n := fexp64 (Zpos (digits2_pos m) + e) - e in
  if 0 <? n then
    let m1 := round_shift (Zpos m) n in
    if m1 =? 2 ^ 53 then finish s (2 ^ 52) (e + n + 1) else finish s m1 (e + n)
  else finish s (Zpos m) e.
Proof.
  unfold binary_round_aux. rewrite shr_fexp_exact by lia. cbv zeta.
  change (Zdigits2 (Zpos m)) with (Zpos (digits2_pos m)).
  pose proof (digits2_pos_bounds m) as [Dl Du].
  set (d := Zpos (digits2_pos m)) in *.
  assert (Hd : 0 < d) by (unfold d; lia). clearbody d.
  rewrite fexp64_eq.
  destruct (Z.ltb_spec 0 (Z.max (d + e - 53) (-1074) - e)) as [Hn | Hn].
  - set (n := Z.max (d + e - 53) (-1074) - e) in *.
    fold (round_shift (Zpos m) n).
    destruct (round_shift_bounds (Zpos m) n ltac:(lia) ltac:(lia)) as [[Rl Ru] _].
    assert (Hq : Zpos m / 2 ^ n < 2 ^ 53).
    { apply Z.div_lt_upper_bound; [apply Z.pow_pos_nonneg; lia |].
      rewrite <- Z.pow_add_r by lia.
      assert (2 ^ d <= 2 ^ (n + 53)) by (apply Z.pow_le_mono_r; lia). lia. }
    assert (H0 : 0 <= Zpos m / 2 ^ n) by (apply Z.div_pos; [lia | apply Z.pow_pos_nonneg; lia]).
    set (m1 := round_shift (Zpos m) n) in *. clearbody m1.
    fold (finish s).
    change (let '(mrs'', e'') := shr_fexp prec emax m1 (e + n) loc_Exact in
            finish s (shr_m mrs'') e'')
      with (let '(mrs, e') := shr_fexp prec emax m1 (e + n) loc_Exact in
            finish s (shr_m mrs) e').
    destruct (Z.eqb_spec m1 (2 ^ 53)) as [-> | Hne].
    + apply second_stage_carry. lia.
    + apply second_stage; [lia |].
      rewrite fexp64_eq.
      pose proof (Zdigits2_le m1 53 ltac:(lia) ltac:(lia)). lia.
  - cbn [shr_m loc_of_shr_record round_nearest_even]. fold (finish s).
    apply (second_stage s (Zpos m) e); [lia |].
    change (Zdigits2 (Zpos m)) with (Zpos (digits2_pos m)).
    rewrite fexp64_eq. 
    pose proof (digits2_pos_unique m (Zpos (digits2_pos m)) (digits2_pos_bounds m)).
    assert (Zpos (digits2_pos m) = d).
    { apply digits2_pos_unique. lia. }
    lia.
Qed.

(** ** Classification *)

Lemma SFeqb_refl (x : spec_float) : SFeqb x x = negb (SFnan x).
Proof.
  destruct x as [s | [|] | | [|] m e]; try reflexivity; unfold SFeqb; cbn;
    now rewrite Z.compare_refl, Pos.compare_cont_refl.
Qed.

Lemma is_nan_spec (x : float) : is_nan x = SFnan (Prim2SF x).
Proof.
  unfold is_nan. rewrite eqb_spec, SFeqb_refl. apply negb_involutive.
Qed.

Lemma is_finite_spec (x : float) : is_finite x = SFfinite (Prim2SF x).
Proof.
  unfold is_finite, is_infinity. rewrite is_nan_spec, eqb_spec, abs_spec.
  change (Prim2SF infinity) with (S754_infinity false).
  destruct (Prim2SF x) as [s | [|] | | [|] m e]; reflexivity.
Qed.

Lemma finish_not_nan (s : bool) (m e : Z) :
  0 <= m -> SFnan (finish s m e) = false.
Proof.
  intros Hm. destruct m as [| p | p]; try lia; cbn; [reflexivity |].
  now destruct (e <=? 971).
Qed.

Lemma round_shift_nonneg (m n : Z) :
  0 <= m -> 1 <= n -> 0 <= round_shift m n.
Proof.
  intros Hm Hn.
  destruct (round_shift_bounds m n Hm Hn) as [[Rl _] _].
  assert (0 <= m / 2 ^ n) by (apply Z.div_pos; [lia | apply Z.pow_pos_nonneg; lia]).
  lia.
Qed.

Lemma binary_round_aux_not_nan (s : bool) (m : positive) (e : Z) :
  SFnan (binary_round_aux prec emax s (Zpos m) e loc_Exact) = false.
Proof.
  rewrite binary_round_aux_exact. cbv zeta.
  destruct (Z.ltb_spec 0 (fexp64 (Zpos (digits2_pos m) + e) - e));
    [| now apply finish_not_nan].
  destruct (_ =? _); apply finish_not_nan; [lia |].
  apply round_shift_nonneg; lia.
Qed.

Lemma binary_normalize_not_nan (m e : Z) (sz : bool) :
  SFnan (binary_normalize prec emax m e sz) = false.
Proof.
  destruct m as [| p | p]; cbn [binary_normalize]; [reflexivity | |];
    unfold binary_round; destruct (shl_align _ _ _) as [mz ez];
    apply binary_round_aux_not_nan.
Qed.

Lemma SFadd_not_nan (x y : spec_float) :
  SFnan x = false -> SFfinite y = true ->
  SFnan (SFadd prec emax x y) = false.
Proof.
  destruct x as [sx | sx | | sx mx ex], y as [sy | sy | | sy my ey];
    cbn; try discriminate; intros _ _; try reflexivity.
  - now destruct sx, sy.
  - apply binary_normalize_not_nan.
Qed.

Lemma SFfinite_not_nan (x : spec_float) : SFfinite x = true -> SFnan x = false.
Proof. now destruct x. Qed.

(** ** Doubling and halving

    A valid mantissa has exactly 53 digits, or fewer at the smallest
    exponent. *)

Lemma bounded_digits (m : positive) (e : Z) :
  SpecFloat.bounded prec emax m e = true ->
  (Zpos (digits2_pos m) = 53 /\ -1074 <= e <= 971) \/
  (Zpos (digits2_pos m) < 53 /\ e = -1074).
Proof.
  unfold bounded, canonical_mantissa. rewrite fexp64_eq.
  intros H. apply andb_prop in H as [Hc He].
  apply Z.eqb_eq in Hc. apply Z.leb_le in He. change (emax - prec) with 971 in He.
  lia.
Qed.

Lemma shl_align_id (m : positive) (e e' : Z) :
  e <= e' -> shl_align m e e' = (m, e).
Proof.
  intros H. unfold shl_align. destruct (e' - e) eqn:E; try reflexivity; lia.
Qed.

(** [c + c] keeps the mantissa and bumps the exponent (or overflows); a
    subnormal [c] has its mantissa doubled instead. *)
Lemma SFadd_self (s : bool) (m : positive) (e : Z) :
  SpecFloat.bounded prec emax m e = true ->
  SFadd prec emax (S754_finite s m e) (S754_finite s m e) =
  if Zpos (digits2_pos m) =? 53 then finish s (Zpos m) (e + 1)
  else S754_finite s m~0 e.
Proof.
  intros Hb. apply bounded_digits in Hb.
  cbn [SFadd]. rewrite Z.min_id, shl_align_id by lia. cbn [fst].
  assert (E : binary_normalize prec emax
                (cond_Zopp s (Zpos m) + cond_Zopp s (Zpos m)) e false =
              binary_round prec emax s m~0 e).
  { destruct s; cbn; now rewrite Pos.add_diag. }
  rewrite E. clear E. unfold binary_round.
  cbn [digits2_pos]. rewrite Pos2Z.inj_succ, fexp64_eq.
  rewrite shl_align_id by lia.
  rewrite binary_round_aux_exact. cbv zeta.
  cbn [digits2_pos]. rewrite Pos2Z.inj_succ, fexp64_eq.
  pose proof (digits2_pos_bounds m) as [_ Du].
  destruct (Z.eqb_spec (Zpos (digits2_pos m)) 53) as [E53 | N53].
  - replace (Z.max (Z.succ (Zpos (digits2_pos m)) + e - 53) (-1074) - e) with 1 by lia.
    cbn [Z.ltb Z.compare].
    rewrite round_shift_exact; try lia.
    + replace (Zpos m~0 / 2 ^ 1) with (Zpos m).
      * rewrite E53 in Du. destruct (Z.eqb_spec (Zpos m) (2 ^ 53)); [lia | reflexivity].
      * rewrite Pos2Z.inj_xO, Z.pow_1_r, Z.mul_comm. symmetry. apply Z.div_mul. lia.
    + rewrite Pos2Z.inj_xO, Z.pow_1_r, Z.mul_comm. apply Z.mod_mul. lia.
  - replace (Z.max (Z.succ (Zpos (digits2_pos m)) + e - 53) (-1074) - e) with 0 by lia.
    cbn [Z.ltb Z.compare finish].
    destruct (Z.leb_spec e (emax - prec)); [reflexivity |]. change (emax - prec) with 971 in *. lia.
Qed.

Lemma div_eucl_eq (a b : Z) : Z.div_eucl a b = (a / b, a mod b).
Proof.
  unfold Z.div, Z.modulo. now destruct (Z.div_eucl a b).
Qed.

(** Dividing by [2] is a division of the mantissa by [2^52] with the
    dividend shifted so that nothing remains. *)
Lemma SFdiv_core_two (m : positive) (e1 : Z) :
  let e' := Z.min (fexp64 (Zpos (digits2_pos m) + e1 - 2)) (e1 + 51) in
  let s := e1 + 51 - e' in
  (Zpos m * 2 ^ s) mod 2 ^ 52 = 0 ->
  SFdiv_core_binary prec emax (Zpos m) e1 4503599627370496 (-51) =
  (Zpos m * 2 ^ s / 2 ^ 52, e', loc_Exact).
Proof.
  intros e' s Hr. unfold SFdiv_core_binary.
  change (Zdigits2 4503599627370496) with 53.
  change (Zdigits2 (Zpos m)) with (Zpos (digits2_pos m)).
  replace (Zpos (digits2_pos m) + e1 - (53 + -51)) with (Zpos (digits2_pos m) + e1 - 2) by lia.
  replace (e1 - -51) with (e1 + 51) by lia.
  fold e'. fold s.
  assert (Hs : 0 <= s) by (unfold s, e'; lia).
  assert (E : match s with
              | 0 => Zpos m
              | Zpos _ => Z.shiftl (Zpos m) s
              | Zneg _ => 0
              end = Zpos m * 2 ^ s).
  { destruct s as [| p | p]; [lia | | lia]. apply Z.shiftl_mul_pow2. lia. }
  rewrite E, div_eucl_eq. change 4503599627370496 with (2 ^ 52).
  rewrite Hr. reflexivity.
Qed.

Lemma SFdiv_two_normal (s : bool) (m : positive) (e : Z) :
  Zpos (digits2_pos m) = 53 -> -1074 <= e -> e <= 970 ->
  SFdiv prec emax (S754_finite s m (e + 1)) SFtwo = S754_finite s m e.
Proof.
  intros Hd Hl Hu. unfold SFdiv, SFtwo. rewrite xorb_false_r.
  pose proof (SFdiv_core_two m (e + 1)) as Hc. cbv zeta in Hc.
  rewrite Hd, fexp64_eq in Hc.
  pose proof (digits2_pos_bounds m) as [_ Du]. rewrite Hd in Du.
  remember (Z.min (Z.max (53 + (e + 1) - 2 - 53) (-1074)) (e + 1 + 51)) as e' eqn:He'.
  destruct (Z.eq_dec e (-1074)) as [-> | Hne].
  - assert (e' = -1074) as -> by lia. clear He'.
    change (-1074 + 1 + 51 - -1074) with 52 in Hc.
    rewrite Hc by (apply Z.mod_mul; lia).
    rewrite Z.div_mul by lia.
    rewrite binary_round_aux_exact. cbv zeta. rewrite Hd. reflexivity.
  - assert (e' = e - 1) as -> by lia. clear He'.
    replace (e + 1 + 51 - (e - 1)) with 53 in Hc by lia.
    replace (Zpos m * 2 ^ 53) with (Zpos m~0 * 2 ^ 52) in Hc by lia.
    rewrite Hc by (apply Z.mod_mul; lia).
    rewrite Z.div_mul by lia.
    rewrite binary_round_aux_exact. cbv zeta. cbn [digits2_pos].
    rewrite Pos2Z.inj_succ, Hd, fexp64_eq.
    replace (Z.max (Z.succ 53 + (e - 1) - 53) (-1074) - (e - 1)) with 1 by lia.
    cbn [Z.ltb Z.compare].
    rewrite round_shift_exact; try lia.
    + replace (Zpos m~0 / 2 ^ 1) with (Zpos m).
      * destruct (Z.eqb_spec (Zpos m) (2 ^ 53)); [lia |].
        replace (e - 1 + 1) with e by lia. cbn [finish].
        destruct (Z.leb_spec e (emax - prec)); [reflexivity |].
        change (emax - prec) with 971 in *. lia.
      * rewrite Pos2Z.inj_xO, Z.pow_1_r, Z.mul_comm. symmetry. apply Z.div_mul. lia.
    + rewrite Pos2Z.inj_xO, Z.pow_1_r, Z.mul_comm. apply Z.mod_mul. lia.
Qed.

Lemma SFdiv_two_subnormal (s : bool) (m : positive) :
  Zpos (digits2_pos m) < 53 ->
  SFdiv prec emax (S754_finite s m~0 (-1074)) SFtwo = S754_finite s m (-1074).
Proof.
  intros Hd. unfold SFdiv, SFtwo. rewrite xorb_false_r.
  pose proof (SFdiv_core_two m~0 (-1074)) as Hc. cbv zeta in Hc.
  cbn [digits2_pos] in Hc. rewrite Pos2Z.inj_succ, fexp64_eq in Hc.
  pose proof (Pos2Z.is_pos (digits2_pos m)) as Hp.
  remember (Z.min (Z.max (Z.succ (Zpos (digits2_pos m)) + -1074 - 2 - 53) (-1074)) (-1074 + 51))
    as e' eqn:He'.
  assert (e' = -1074) as -> by lia. clear He'.
  change (-1074 + 51 - -1074) with 51 in Hc.
  replace (Zpos m~0 * 2 ^ 51) with (Zpos m * 2 ^ 52) in Hc by lia.
  rewrite Hc by (apply Z.mod_mul; lia).
  rewrite Z.div_mul by lia.
  rewrite binary_round_aux_exact. cbv zeta. rewrite fexp64_eq.
  replace (Z.max (Zpos (digits2_pos m) + -1074 - 53) (-1074) - -1074) with 0 by lia.
  cbn [Z.ltb Z.compare finish]. reflexivity.
Qed.

(** Halving the double of a binary64 number gives the number back, unless
    the doubling overflowed. *)
Lemma SFhalf_double (s : bool) (m : positive) (e : Z) :
  SpecFloat.bounded prec emax m e = true ->
  let c := S754_finite s m e in
  let p := SFdiv prec emax (SFadd prec emax c c) SFtwo in
  p = c \/ p = S754_infinity s.
Proof.
  intros Hb c p. subst p c. rewrite SFadd_self by assumption.
  destruct (bounded_digits m e Hb) as [[Hd He] | [Hd ->]].
  - rewrite Hd. cbn [Z.eqb Pos.eqb finish].
    destruct (Z.leb_spec (e + 1) (emax - prec)) as [L | G]; change (emax - prec) with 971 in *.
    + left. apply SFdiv_two_normal; lia.
    + right. cbn. now rewrite xorb_false_r.
  - destruct (Z.eqb_spec (Zpos (digits2_pos m)) 53); [lia |].
    left. now apply SFdiv_two_subnormal.
Qed.

Lemma SFsub_diag (s : bool) (m : positive) (e : Z) :
  SFsub prec emax (S754_finite s m e) (S754_finite s m e) = S754_zero false.
Proof.
  cbn [SFsub]. now rewrite Z.sub_diag.
Qed.

(** ** Comparison and zero *)

Lemma SFeqb_finite_r (x : spec_float) (s : bool) (m : positive) (e : Z) :
  SFeqb x (S754_finite s m e) = true -> x = S754_finite s m e.
Proof.
  unfold SFeqb.
  destruct x as [sx | [|] | | [|] mx ex], s; cbn; try discriminate;
    destruct (Z.compare_spec ex e) as [-> | |]; try discriminate;
    destruct (Pos.compare_cont Eq mx m) eqn:E; try discriminate;
    apply Pos.compare_eq in E; now subst.
Qed.

Lemma SFeqb_zero_r (x : spec_float) (s : bool) :
  SFeqb x (S754_zero s) = true -> SFzero x = true.
Proof.
  unfold SFeqb. destruct x as [sx | [|] | | [|] mx ex]; cbn; congruence.
Qed.

Lemma SFeqb_infinity_r (x : spec_float) (s : bool) :
  SFeqb x (S754_infinity s) = true -> x = S754_infinity s.
Proof.
  unfold SFeqb. destruct x as [sx | [|] | | [|] mx ex], s; cbn; congruence.
Qed.

Lemma SFmul_finite_inv (x y : spec_float) :
  SFfinite (SFmul prec emax x y) = true ->
  SFfinite x = true /\ SFfinite y = true.
Proof.
  destruct x as [sx | sx | | sx mx ex], y as [sy | sy | | sy my ey];
    cbn; intros H; try discriminate; now split.
Qed.

Lemma SFmul_zero_r (x y : spec_float) :
  SFfinite x = true -> SFzero y = true ->
  SFzero (SFmul prec emax x y) = true.
Proof.
  destruct x as [sx | sx | | sx mx ex], y as [sy | sy | | sy my ey];
    cbn; intros H1 H2; try discriminate; reflexivity.
Qed.

Lemma SFsqrt_zero (x : spec_float) :
  SFzero x = true -> SFzero (SFsqrt prec emax x) = true.
Proof. destruct x; cbn; intros H; try discriminate; reflexivity. Qed.

Lemma SFzero_eqb (x : spec_float) :
  SFzero x = true -> SFeqb x (S754_zero false) = true.
Proof. destruct x; cbn; intros H; try discriminate; reflexivity. Qed.

(** When [s] compares equal to [c], the half of [s + c] is [c] again, so
    subtracting [c] from it leaves zero; the only other outcome is that
    the sum overflowed. *)
Lemma SFsemi_degenerate (s c : spec_float) :
  valid_binary c = true -> SFeqb s c = true ->
  let p := SFdiv prec emax (SFadd prec emax s c) SFtwo in
  SFfinite p = true -> SFzero (SFsub prec emax p c) = true.
Proof.
  intros Hv He. destruct c as [sc | sc | | sc m e].
  - apply SFeqb_zero_r in He. destruct s as [ss | | |]; try discriminate.
    now destruct ss, sc.
  - apply SFeqb_infinity_r in He. subst s. now destruct sc.
  - destruct s as [? | [|] | | [|] ? ?]; discriminate.
  - apply SFeqb_finite_r in He. subst s. cbv zeta.
    destruct (SFhalf_double sc m e Hv) as [-> | ->]; [| discriminate].
    intros _. now rewrite SFsub_diag.
Qed.


(** ** Signs

    Rounding never changes a sign, and never makes not-a-number. *)

Lemma SFsignbit_not_nan (x : spec_float) (s : bool) :
  SFsignbit x = Some s -> SFnan x = false.
Proof. destruct x; cbn; congruence. Qed.

Lemma SFnan_signbit (x : spec_float) :
  SFnan x = false -> exists s, SFsignbit x = Some s.
Proof. destruct x; cbn; try discriminate; eauto. Qed.

Lemma finish_signbit (s : bool) (m e : Z) :
  0 <= m -> SFsignbit (finish s m e) = Some s.
Proof.
  intros Hm. destruct m as [| p | p]; try lia; cbn [finish]; [reflexivity |].
  now destruct (e <=? emax - prec).
Qed.

(** Rounding keeps the sign it is given. *)
Lemma binary_round_aux_signbit (s : bool) (m : positive) (e : Z) :
  SFsignbit (binary_round_aux prec emax s (Zpos m) e loc_Exact) = Some s.
Proof.
  rewrite binary_round_aux_exact. cbv zeta.
  destruct (Z.ltb_spec 0 (fexp64 (Zpos (digits2_pos m) + e) - e));
    [| now apply finish_signbit].
  destruct (_ =? _); apply finish_signbit; [lia |].
  apply round_shift_nonneg; lia.
Qed.

Lemma binary_round_signbit (s : bool) (m : positive) (e : Z) :
  SFsignbit (binary_round prec emax s m e) = Some s.
Proof.
  unfold binary_round. destruct (shl_align _ _ _) as [mz ez].
  apply binary_round_aux_signbit.
Qed.

(** Rounding is symmetric: the sign only labels the result. *)
Lemma binary_round_aux_opp (s : bool) (m e : Z) (l : location) :
  binary_round_aux prec emax (negb s) m e l =
  SFopp (binary_round_aux prec emax s m e l).
Proof.
  unfold binary_round_aux.
  destruct (shr_fexp prec emax m e l) as [mrs e'].
  destruct (shr_fexp prec emax _ e' loc_Exact) as [mrs' e''].
  destruct (shr_m mrs') as [| p | p]; try reflexivity.
  now destruct (e'' <=? emax - prec).
Qed.

Lemma SFopp_involutive (x : spec_float) : SFopp (SFopp x) = x.
Proof. destruct x; cbn; now rewrite ?negb_involutive. Qed.

Lemma SFmul_opp_r (x y : spec_float) :
  SFmul prec emax x (SFopp y) = SFopp (SFmul prec emax x y).
Proof.
  destruct x as [sx | sx | | sx mx ex], y as [sy | sy | | sy my ey];
    cbn [SFmul SFopp]; try reflexivity; rewrite <- ?negb_xorb_r; try reflexivity.
  apply binary_round_aux_opp.
Qed.

Lemma SFmul_comm (x y : spec_float) :
  SFmul prec emax x y = SFmul prec emax y x.
Proof.
  destruct x as [sx | sx | | sx mx ex], y as [sy | sy | | sy my ey];
    cbn [SFmul]; try reflexivity; rewrite (xorb_comm sx sy); try reflexivity.
  now rewrite Pos.mul_comm, Z.add_comm.
Qed.

Lemma SFmul_opp_l (x y : spec_float) :
  SFmul prec emax (SFopp x) y = SFopp (SFmul prec emax x y).
Proof. now rewrite SFmul_comm, SFmul_opp_r, SFmul_comm. Qed.

(** A product with a finite non-zero factor is never not-a-number, and
    its sign is the product of the signs. *)
Lemma SFmul_finite_r_signbit (x : spec_float) (sx sy : bool) (my : positive) (ey : Z) :
  SFsignbit x = Some sx ->
  SFsignbit (SFmul prec emax x (S754_finite sy my ey)) = Some (xorb sx sy).
Proof.
  destruct x as [s | s | | s mx ex]; cbn [SFsignbit SFmul]; intros H;
    try discriminate; injection H as ->; try reflexivity.
  apply binary_round_aux_signbit.
Qed.

Lemma SFmul_finite_l_signbit (y : spec_float) (sx sy : bool) (mx : positive) (ex : Z) :
  SFsignbit y = Some sy ->
  SFsignbit (SFmul prec emax (S754_finite sx mx ex) y) = Some (xorb sx sy).
Proof.
  intros H. rewrite SFmul_comm, xorb_comm. now apply SFmul_finite_r_signbit.
Qed.

Lemma SFmul_nan_l (y : spec_float) : SFmul prec emax S754_nan y = S754_nan.
Proof. now destruct y. Qed.

Lemma SFmul_nan_r (x : spec_float) : SFmul prec emax x S754_nan = S754_nan.
Proof. now destruct x. Qed.

(** [c * r * r] for a positive constant [c]: the two signs of [r] cancel. *)
Lemma SFsquare_signbit (mc : positive) (ec : Z) (r : spec_float) (s : bool) :
  SFsignbit r = Some s ->
  SFsignbit (SFmul prec emax (SFmul prec emax (S754_finite false mc ec) r) r)
  = Some false.
Proof.
  intros H.
  pose proof (SFmul_finite_l_signbit r false s mc ec H) as Ht.
  cbn [xorb] in Ht.
  destruct r as [sr | sr | | sr mr er]; try discriminate H;
    cbn [SFsignbit] in H; injection H as ->.
  - cbn. now destruct s.
  - cbn. now destruct s.
  - rewrite (SFmul_finite_r_signbit _ s s mr er Ht). now destruct s.
Qed.

Lemma shr_record_of_loc_m (m : Z) (l : location) :
  shr_m (shr_record_of_loc m l) = m.
Proof. destruct l as [| []]; reflexivity. Qed.

Lemma shr_1_m_nonneg (mrs : shr_record) :
  0 <= shr_m mrs -> 0 <= shr_m (shr_1 mrs).
Proof.
  destruct mrs as [m r s]. cbn [shr_m]. intros Hm.
  rewrite shr_1_nonneg by assumption. cbn [shr_m]. apply Z.div_pos; lia.
Qed.

Lemma shr_m_nonneg (mrs : shr_record) (e n : Z) :
  0 <= shr_m mrs -> 0 <= shr_m (fst (shr mrs e n)).
Proof.
  intros Hm. destruct n as [| p | p]; cbn [shr fst]; try assumption.
  rewrite iter_pos_nat. induction (Pos.to_nat p) as [| k IH]; [assumption |].
  cbn [Nat.iter nat_rect]. now apply shr_1_m_nonneg.
Qed.

Lemma round_nearest_even_nonneg (m : Z) (l : location) :
  0 <= m -> 0 <= round_nearest_even m l.
Proof.
  intros Hm. destruct l as [| []]; cbn [round_nearest_even]; try lia.
  destruct (Z.even m); lia.
Qed.

Lemma shr_fexp_m_nonneg (m e : Z) (l : location) :
  0 <= m -> 0 <= shr_m (fst (shr_fexp prec emax m e l)).
Proof.
  intros Hm. unfold shr_fexp. apply shr_m_nonneg.
  now rewrite shr_record_of_loc_m.
Qed.

(** Whatever was lost before, rounding a non-negative mantissa gives a
    number, with the sign handed in. *)
Lemma binary_round_aux_any_signbit (s : bool) (m e : Z) (l : location) :
  0 <= m -> SFsignbit (binary_round_aux prec emax s m e l) = Some s.
Proof.
  intros Hm. unfold binary_round_aux.
  pose proof (shr_fexp_m_nonneg m e l Hm) as H1.
  destruct (shr_fexp prec emax m e l) as [mrs e']. cbn [fst] in H1.
  pose proof (round_nearest_even_nonneg (shr_m mrs) (loc_of_shr_record mrs) H1) as H2.
  pose proof (shr_fexp_m_nonneg _ e' loc_Exact H2) as H3.
  destruct (shr_fexp prec emax _ e' loc_Exact) as [mrs' e'']. cbn [fst] in H3.
  destruct (shr_m mrs') as [| p | p]; try lia; [reflexivity |].
  now destruct (e'' <=? emax - prec).
Qed.

Lemma SFsqrt_core_nonneg (m : positive) (e : Z) :
  0 <= fst (fst (SFsqrt_core_binary prec emax (Zpos m) e)).
Proof.
  unfold SFsqrt_core_binary.
  set (s := e - 2 * _). 
  set (m' := match s with 0 => Zpos m | Zpos _ => Z.shiftl (Zpos m) s | Zneg _ => 0 end).
  assert (Hm' : 0 <= m').
  { subst m'. destruct s; try lia. apply Z.shiftl_nonneg. lia. }
  pose proof (Z.sqrtrem_spec m' Hm') as H.
  destruct (Z.sqrtrem m') as [q r]. cbn [fst]. lia.
Qed.

(** The square root is not-a-number exactly on not-a-number and on
    negative arguments; otherwise it keeps a zero and is positive. *)
Lemma SFsqrt_nan (x : spec_float) :
  SFnan (SFsqrt prec emax x) = SFnan x || SFltb x (S754_zero false).
Proof.
  destruct x as [s | [|] | | [|] m e]; try reflexivity.
  cbn [SFsqrt SFnan orb]. unfold SFltb; cbn [SFcompare].
  pose proof (SFsqrt_core_nonneg m e) as H.
  destruct (SFsqrt_core_binary prec emax (Zpos m) e) as [[mz ez] lz].
  cbn [fst] in H.
  apply SFsignbit_not_nan with (s := false).
  now apply binary_round_aux_any_signbit.
Qed.

Lemma SFsqrt_not_negative (x : spec_float) :
  SFltb (SFsqrt prec emax x) (S754_zero false) = false.
Proof.
  destruct x as [s | [|] | | [|] m e]; try reflexivity.
  cbn [SFsqrt].
  pose proof (SFsqrt_core_nonneg m e) as H.
  destruct (SFsqrt_core_binary prec emax (Zpos m) e) as [[mz ez] lz].
  cbn [fst] in H.
  pose proof (binary_round_aux_any_signbit false mz ez lz H) as S.
  now destruct (binary_round_aux prec emax false mz ez lz) as [[|] | [|] | | [|] ? ?].
Qed.

(** With a sign bit that is clear, a value is at least zero. *)
Lemma SFleb_zero_signbit (x : spec_float) :
  SFsignbit x = Some false -> SFleb (S754_zero false) x = true.
Proof. now destruct x as [[|] | [|] | | [|] ? ?]. Qed.

Lemma SFltb_zero_signbit (x : spec_float) :
  SFsignbit x = Some false -> SFltb x (S754_zero false) = false.
Proof. now destruct x as [[|] | [|] | | [|] ? ?]. Qed.

Lemma SFadd_nan_l (y : spec_float) : SFadd prec emax S754_nan y = S754_nan.
Proof. now destruct y. Qed.

Lemma SFadd_nan_r (x : spec_float) : SFadd prec emax x S754_nan = S754_nan.
Proof. now destruct x. Qed.

Lemma SFdiv_nan_l (y : spec_float) : SFdiv prec emax S754_nan y = S754_nan.
Proof. now destruct y. Qed.

Lemma SFleb_zero_not_negative (x : spec_float) :
  SFleb (S754_zero false) x = SFnot_negative x.
Proof. now destruct x as [[|] | [|] | | [|] ? ?]. Qed.

Lemma SFadd_not_negative (x y : spec_float) :
  SFnot_negative x = true -> SFnot_negative y = true ->
  SFnot_negative (SFadd prec emax x y) = true.
Proof.
  destruct x as [sx | [|] | | [|] mx ex], y as [sy | [|] | | [|] my ey];
    cbn [SFnot_negative]; intros Hx Hy; try discriminate; try reflexivity.
  - now destruct sx, sy.
  - cbn [SFadd cond_Zopp].
    set (ez := Z.min ex ey).
    assert (E : exists p, Zpos (fst (shl_align mx ex ez)) + Zpos (fst (shl_align my ey ez)) = Zpos p)
      by (eexists; reflexivity).
    destruct E as [p ->]. cbn [binary_normalize].
    pose proof (binary_round_signbit false p ez) as S.
    now destruct (binary_round prec emax false p ez) as [[|] | [|] | | [|] ? ?].
Qed.

Lemma SFnot_negative_not_nan (x : spec_float) :
  SFnot_negative x = true -> SFnan x = false.
Proof. now destruct x as [[|] | [|] | | [|] ? ?]. Qed.

(** ** Products that do not vanish *)

Lemma digits2_pos_lower (m : positive) (k : Z) :
  0 <= k -> 2 ^ k <= Zpos m -> k + 1 <= Zpos (digits2_pos m).
Proof.
  intros Hk H. pose proof (digits2_pos_bounds m) as [_ Hu].
  assert (2 ^ k < 2 ^ Zpos (digits2_pos m)) as L by lia.
  apply Z.pow_lt_mono_r_iff in L; lia.
Qed.

Lemma digits2_pos_upper (m : positive) (k : Z) :
  0 <= k -> Zpos m < 2 ^ k -> Zpos (digits2_pos m) <= k.
Proof.
  intros Hk H. pose proof (digits2_pos_bounds m) as [Hl _].
  assert (2 ^ (Zpos (digits2_pos m) - 1) < 2 ^ k) as L by lia.
  apply Z.pow_lt_mono_r_iff in L; lia.
Qed.

(** The digits of a product: the sum of the digits, or one less. *)
Lemma digits2_pos_mul (a b : positive) :
  Zpos (digits2_pos a) + Zpos (digits2_pos b) - 1 <= Zpos (digits2_pos (a * b))
  <= Zpos (digits2_pos a) + Zpos (digits2_pos b).
Proof.
  pose proof (digits2_pos_bounds a) as [Al Au].
  pose proof (digits2_pos_bounds b) as [Bl Bu].
  set (da := Zpos (digits2_pos a)) in *. set (db := Zpos (digits2_pos b)) in *.
  assert (Ha : 0 < da) by (unfold da; lia). assert (Hb : 0 < db) by (unfold db; lia).
  clearbody da db. pose proof (Pos2Z.inj_mul a b) as E. split.
  - assert (2 ^ (da + db - 2) <= Zpos (a * b)).
    { rewrite E. replace (da + db - 2) with ((da - 1) + (db - 1)) by lia.
      rewrite Z.pow_add_r by lia. apply Z.mul_le_mono_nonneg; lia. }
    pose proof (digits2_pos_lower (a * b) (da + db - 2) ltac:(lia) H). lia.
  - assert (Zpos (a * b) < 2 ^ (da + db)).
    { rewrite E, Z.pow_add_r by lia. apply Z.mul_lt_mono_nonneg; lia. }
    apply digits2_pos_upper; lia.
Qed.

(** A value of at least the smallest subnormal does not round to zero. *)
Lemma binary_round_aux_nonzero (s : bool) (m : positive) (e : Z) :
  -1073 <= Zpos (digits2_pos m) + e ->
  SFzero (binary_round_aux prec emax s (Zpos m) e loc_Exact) = false.
Proof.
  intros Hd. rewrite binary_round_aux_exact. cbv zeta. rewrite fexp64_eq.
  pose proof (digits2_pos_bounds m) as [Dl Du].
  set (d := Zpos (digits2_pos m)) in *.
  assert (0 < d) by (unfold d; lia). clearbody d.
  assert (F : forall p e', SFzero (finish s (Zpos p) e') = false).
  { intros p e'. cbn [finish]. now destruct (e' <=? emax - prec). }
  destruct (Z.ltb_spec 0 (Z.max (d + e - 53) (-1074) - e)) as [Hn | Hn]; [| apply F].
  set (n := Z.max (d + e - 53) (-1074) - e) in *.
  destruct (Z.eqb_spec (round_shift (Zpos m) n) (2 ^ 53)); [apply F |].
  destruct (round_shift_bounds (Zpos m) n ltac:(lia) ltac:(lia)) as [[Rl _] _].
  assert (1 <= Zpos m / 2 ^ n).
  { apply Z.div_le_lower_bound; [apply Z.pow_pos_nonneg; lia |].
    assert (2 ^ n <= 2 ^ (d - 1)) by (apply Z.pow_le_mono_r; lia). lia. }
  destruct (round_shift (Zpos m) n) as [| p | p]; try lia. apply F.
Qed.

(** Multiplying by a normal constant of magnitude at least one keeps every
    non-zero number away from zero. *)
Lemma SFmul_constant_nonzero (sc sr : bool) (mc mr : positive) (ec er : Z) :
  Zpos (digits2_pos mc) = 53 -> -52 <= ec ->
  SpecFloat.bounded prec emax mr er = true ->
  SFzero (SFmul prec emax (S754_finite sc mc ec) (S754_finite sr mr er)) = false.
Proof.
  intros Hc He Hb. cbn [SFmul]. apply binary_round_aux_nonzero.
  pose proof (digits2_pos_mul mc mr) as [L _].
  pose proof (Pos2Z.is_pos (digits2_pos mr)).
  destruct (bounded_digits mr er Hb) as [[_ ?] | [_ ?]]; lia.
Qed.

(** The sign of [c * r] is the sign of [r] for a positive normal constant
    [c >= 1]: negative, zero and positive are preserved. *)
Lemma SFmul_constant_ltb (mc : positive) (ec : Z) (r : spec_float) :
  Zpos (digits2_pos mc) = 53 -> -52 <= ec ->
  valid_binary r = true ->
  let p := SFmul prec emax (S754_finite false mc ec) r in
  SFltb p (S754_zero false) = SFltb r (S754_zero false) /\
  SFltb (S754_zero false) p = SFltb (S754_zero false) r.
Proof.
  intros Hc He Hv p. subst p.
  destruct r as [s | [|] | | s m e]; try (split; reflexivity).
  pose proof (SFmul_constant_nonzero false s mc m ec e Hc He Hv) as Nz.
  pose proof (SFmul_finite_l_signbit (S754_finite s m e) false s mc ec eq_refl) as S.
  cbn [xorb] in S.
  destruct (SFmul prec emax _ _) as [? | ? | | ? ? ?]; try discriminate;
    cbn [SFsignbit] in S; injection S as ->; now destruct s.
Qed.

(** Doubling by multiplication and by addition agree. *)
Lemma SFmul_two (x : spec_float) :
  valid_binary x = true ->
  SFmul prec emax SFtwo x = SFadd prec emax x x.
Proof.
  intros Hv. destruct x as [[|] | [|] | | s m e]; try reflexivity.
  cbn [valid_binary] in Hv. rewrite SFadd_self by assumption.
  unfold SFtwo. cbn [SFmul xorb]. rewrite binary_round_aux_exact. cbv zeta.
  assert (D : Zpos (digits2_pos (4503599627370496 * m)) = Zpos (digits2_pos m) + 52).
  { pose proof (digits2_pos_bounds m) as [Dl Du].
    pose proof (Pos2Z.is_pos (digits2_pos m)).
    apply digits2_pos_unique. rewrite Pos2Z.inj_mul.
    change (Zpos 4503599627370496) with (2 ^ 52).
    replace (Zpos (digits2_pos m) + 52 - 1) with (52 + (Zpos (digits2_pos m) - 1)) by lia.
    rewrite (Z.add_comm _ 52), !Z.pow_add_r by lia. lia. }
  rewrite D, fexp64_eq. clear D.
  pose proof (digits2_pos_bounds m) as [Dl Du].
  assert (P : forall k, 0 <= k -> k <= 52 ->
            Zpos (4503599627370496 * m) mod 2 ^ k = 0 /\
            Zpos (4503599627370496 * m) / 2 ^ k = 2 ^ (52 - k) * Zpos m).
  { intros k Hk Hk'.
    assert (E : Zpos (4503599627370496 * m) = 2 ^ (52 - k) * Zpos m * 2 ^ k).
    { rewrite Pos2Z.inj_mul. change (Zpos 4503599627370496) with (2 ^ 52).
      assert (E0 : 2 ^ 52 = 2 ^ (52 - k) * 2 ^ k)
        by (rewrite <- Z.pow_add_r by lia; f_equal; lia).
      rewrite E0. ring. }
    assert (0 < 2 ^ k) by (apply Z.pow_pos_nonneg; lia).
    rewrite E. split; [apply Z.mod_mul | apply Z.div_mul]; lia. }
  destruct (bounded_digits m e Hv) as [[Hd He] | [Hd ->]].
  - rewrite Hd in *. cbn [Z.eqb Pos.eqb].
    replace (Z.max (53 + 52 + (-51 + e) - 53) (-1074) - (-51 + e)) with 52 by lia.
    cbn [Z.ltb Z.compare].
    destruct (P 52 ltac:(lia) ltac:(lia)) as [Pm Pd].
    rewrite round_shift_exact, Pd by (try assumption; lia).
    change (2 ^ (52 - 52)) with 1. rewrite Z.mul_1_l.
    destruct (Z.eqb_spec (Zpos m) (2 ^ 53)); [lia |].
    f_equal. lia.
  - destruct (Z.eqb_spec (Zpos (digits2_pos m)) 53); [lia |].
    replace (Z.max (Zpos (digits2_pos m) + 52 + (-51 + -1074) - 53) (-1074) - (-51 + -1074))
      with 51 by lia.
    cbn [Z.ltb Z.compare].
    destruct (P 51 ltac:(lia) ltac:(lia)) as [Pm Pd].
    rewrite round_shift_exact, Pd by (try assumption; lia).
    change (2 ^ (52 - 51) * Zpos m) with (Zpos m~0).
    assert (Zpos m < 2 ^ 52).
    { assert (2 ^ Zpos (digits2_pos m) <= 2 ^ 52) by (apply Z.pow_le_mono_r; lia). lia. }
    destruct (Z.eqb_spec (Zpos m~0) (2 ^ 53)); [lia |].
    reflexivity.
Qed.

(** ** Order *)

Lemma compare_cont_opp (p q : positive) :
  Pos.compare_cont Eq q p = CompOpp (Pos.compare_cont Eq p q).
Proof. apply (Pos.compare_antisym p q). Qed.

Lemma SFcompare_opp (x y : spec_float) :
  SFcompare y x = option_map CompOpp (SFcompare x y).
Proof.
  destruct x as [[|] | [|] | | [|] mx ex], y as [[|] | [|] | | [|] my ey];
    try reflexivity; cbn [SFcompare option_map];
    rewrite (Z.compare_antisym ex ey); destruct (ex ?= ey)%Z; cbn [CompOpp];
    try reflexivity; rewrite (compare_cont_opp mx my);
    destruct (Pos.compare_cont Eq mx my); reflexivity.
Qed.

Lemma SFltb_leb (x y : spec_float) :
  SFltb x y = negb (SFleb y x) && negb (SFnan x || SFnan y).
Proof.
  unfold SFltb, SFleb. rewrite (SFcompare_opp x y).
  destruct x as [[|] | [|] | | [|] mx ex], y as [[|] | [|] | | [|] my ey];
    try reflexivity; cbn [SFcompare SFnan option_map orb negb];
    rewrite ?andb_true_r;
    destruct (ex ?= ey)%Z; try reflexivity;
    destruct (Pos.compare_cont Eq mx my); reflexivity.
Qed.

Lemma SFabs_nan (x : spec_float) : SFnan (SFabs x) = SFnan x.
Proof. now destruct x. Qed.

(** ** Operations on equal arguments

    Every operation the shapes use maps arguments that are the same, or
    both zero, to results that are the same, or both zero. *)




Lemma SFopp_same (x x' : spec_float) :
  SFsame_or_zeros x x' -> SFsame_or_zeros (SFopp x) (SFopp x').
Proof.
  intros [-> | [Hx Hx']]; [now left |].
  destruct x as [sx | | |], x' as [sx' | | |]; try discriminate.
  right. split; reflexivity.
Qed.





End Binary64Facts.

(** * Real values of binary64 results *)

Module RealFacts.

Import Shapes Binary64 Binary64Facts PiSeries.
Local Open Scope R_scope.

(** ** Powers of two *)

Lemma pow2_IZR (n : Z) : (0 <= n)%Z -> IZR (2 ^ n) = powerRZ 2 n.
Proof.
  intros Hn. rewrite <- (Z2Nat.id n Hn) at 1 2.
  rewrite <- pow_IZR, <- pow_powerRZ. reflexivity.
Qed.

Lemma powerRZ2_pos (e : Z) : 0 < powerRZ 2 e.
Proof. apply powerRZ_lt. lra. Qed.

Lemma powerRZ2_add (a b : Z) : powerRZ 2 (a + b) = powerRZ 2 a * powerRZ 2 b.
Proof. apply powerRZ_add. lra. Qed.

Lemma powerRZ2_le (a b : Z) : (a <= b)%Z -> powerRZ 2 a <= powerRZ 2 b.
Proof.
  intros H. replace b with (a + (b - a))%Z by lia. rewrite powerRZ2_add.
  rewrite <- (Rmult_1_r (powerRZ 2 a)) at 1.
  apply Rmult_le_compat_l; [apply Rlt_le, powerRZ2_pos |].
  rewrite <- pow2_IZR by lia. apply IZR_le.
  assert (0 < 2 ^ (b - a))%Z by (apply Z.pow_pos_nonneg; lia). lia.
Qed.

Lemma powerRZ2_lt_inv (a b : Z) : powerRZ 2 a < powerRZ 2 b -> (a < b)%Z.
Proof.
  intros H. destruct (Z.lt_ge_cases a b) as [L | G]; [assumption |].
  apply powerRZ2_le in G. lra.
Qed.

Lemma powerRZ2_1 : powerRZ 2 1 = 2.
Proof. rewrite <- pow2_IZR by lia. reflexivity. Qed.

Lemma powerRZ2_pred (e : Z) : powerRZ 2 e = 2 * powerRZ 2 (e - 1).
Proof.
  replace e with (1 + (e - 1))%Z at 1 by lia. rewrite powerRZ2_add.
  now rewrite powerRZ2_1.
Qed.

(** A mantissa with [d] digits times [2^e] is at least [2^(d-1+e)]. *)
Lemma digits_value_lower (m : positive) (e : Z) :
  powerRZ 2 (Zpos (digits2_pos m) - 1 + e) <= IZR (Zpos m) * powerRZ 2 e.
Proof.
  rewrite powerRZ2_add. apply Rmult_le_compat_r; [apply Rlt_le, powerRZ2_pos |].
  rewrite <- pow2_IZR by lia. apply IZR_le, digits2_pos_bounds.
Qed.

Lemma digits_value_upper (m : positive) (e : Z) :
  IZR (Zpos m) * powerRZ 2 e < powerRZ 2 (Zpos (digits2_pos m) + e).
Proof.
  rewrite powerRZ2_add. apply Rmult_lt_compat_r; [apply powerRZ2_pos |].
  rewrite <- pow2_IZR by lia. apply IZR_lt, digits2_pos_bounds.
Qed.

Lemma SF2R_finish (m e : Z) :
  (0 <= m)%Z -> (e <= 971)%Z ->
  SFfinite (finish false m e) = true /\
  SF2R (finish false m e) = IZR m * powerRZ 2 e.
Proof.
  intros Hm He. destruct m as [| p | p]; try lia; cbn [finish].
  - split; [reflexivity | cbn; lra].
  - change (emax - prec)%Z with 971%Z.
    destruct (Z.leb_spec e 971); [| lia]. split; reflexivity.
Qed.

(** Rounding a positive integer multiple of [2^e] that is below [2^k]
    gives a finite binary64 number at most half a unit in the last place
    away. *)
Lemma binary_round_aux_error (m : positive) (e k : Z) :
  IZR (Zpos m) * powerRZ 2 e < powerRZ 2 k ->
  (k <= 1023)%Z -> (e <= 971)%Z ->
  let z := binary_round_aux prec emax false (Zpos m) e loc_Exact in
  SFfinite z = true /\
  Rabs (SF2R z - IZR (Zpos m) * powerRZ 2 e)
    <= powerRZ 2 (Z.max (k - 53) (-1074) - 1).
Proof.
  intros Hv Hk He z. subst z. rewrite binary_round_aux_exact. cbv zeta.
  pose proof (digits_value_lower m e) as Dl.
  assert (Hd : (Zpos (digits2_pos m) + e <= k)%Z).
  { assert (powerRZ 2 (Zpos (digits2_pos m) - 1 + e) < powerRZ 2 k) as L by lra.
    apply powerRZ2_lt_inv in L. lia. }
  rewrite fexp64_eq.
  set (d := Zpos (digits2_pos m)) in *. clearbody d.
  destruct (Z.ltb_spec 0 (Z.max (d + e - 53) (-1074) - e)) as [Hn | Hn].
  - set (n := (Z.max (d + e - 53) (-1074) - e)%Z) in *.
    destruct (round_shift_bounds (Zpos m) n ltac:(lia) ltac:(lia)) as [_ [El Eu]].
    pose proof (round_shift_nonneg (Zpos m) n ltac:(lia) ltac:(lia)) as H0.
    set (m1 := round_shift (Zpos m) n) in *. clearbody m1.
    assert (V : SFfinite (if (m1 =? 2 ^ 53)%Z then finish false (2 ^ 52) (e + n + 1)
                          else finish false m1 (e + n)) = true /\
                SF2R (if (m1 =? 2 ^ 53)%Z then finish false (2 ^ 52) (e + n + 1)
                      else finish false m1 (e + n)) = IZR m1 * powerRZ 2 (e + n)).
    { destruct (Z.eqb_spec m1 (2 ^ 53)) as [-> | _].
      - destruct (SF2R_finish (2 ^ 52) (e + n + 1) ltac:(lia) ltac:(lia)) as [F ->].
        split; [exact F |].
        rewrite (powerRZ2_add (e + n) 1).
        rewrite powerRZ2_1.
        change (2 ^ 53)%Z with (2 * 2 ^ 52)%Z. rewrite mult_IZR. lra.
      - apply SF2R_finish; lia. }
    destruct V as [F ->]. split; [exact F |].
    replace (IZR m1 * powerRZ 2 (e + n) - IZR (Zpos m) * powerRZ 2 e)
      with (IZR (m1 * 2 ^ n - Zpos m) * powerRZ 2 e).
    2:{ rewrite minus_IZR, mult_IZR, pow2_IZR, (Z.add_comm e n), powerRZ2_add by lia. ring. }
    rewrite Rabs_mult, (Rabs_pos_eq (powerRZ 2 e)) by apply Rlt_le, powerRZ2_pos.
    apply Rle_trans with (powerRZ 2 (n - 1) * powerRZ 2 e).
    + apply Rmult_le_compat_r; [apply Rlt_le, powerRZ2_pos |].
      apply IZR_le in El, Eu. rewrite mult_IZR in El, Eu.
      rewrite opp_IZR in El. rewrite pow2_IZR in El, Eu by lia.
      rewrite (powerRZ2_pred n) in El, Eu.
      apply Rabs_le. change (IZR 2) with 2 in *. lra.
    + rewrite <- powerRZ2_add. apply powerRZ2_le. lia.
  - destruct (SF2R_finish (Zpos m) e ltac:(lia) He) as [F ->].
    split; [exact F |].
    rewrite Rminus_diag, Rabs_R0. apply Rlt_le, powerRZ2_pos.
Qed.

(** ** Products of non-negative numbers *)

Lemma SFnonneg_finite (x : spec_float) : SFnonneg x = true -> SFfinite x = true.
Proof. destruct x as [| | | [|] ? ?]; cbn; congruence. Qed.

Lemma SF2R_nonneg (x : spec_float) : SFnonneg x = true -> 0 <= SF2R x.
Proof.
  destruct x as [| | | [|] m e]; cbn [SFnonneg SF2R cond_Zopp]; try discriminate;
    intros _; try lra.
  apply Rmult_le_pos; [apply IZR_le; lia | apply Rlt_le, powerRZ2_pos].
Qed.

Lemma finish_nonneg (m e : Z) :
  (0 <= m)%Z -> (e <= 971)%Z -> SFnonneg (finish false m e) = true.
Proof.
  intros Hm He. destruct m as [| p | p]; try lia; cbn [finish]; [reflexivity |].
  change (emax - prec)%Z with 971%Z. now destruct (Z.leb_spec e 971); [| lia].
Qed.

(** A canonical mantissa below [2^k] sits at an exponent of at most
    [k - 53], or at the smallest exponent. *)
Lemma bounded_exponent (m : positive) (e k : Z) :
  SpecFloat.bounded prec emax m e = true ->
  IZR (Zpos m) * powerRZ 2 e < powerRZ 2 k ->
  (e <= Z.max (k - 53) (-1074))%Z.
Proof.
  intros Hb Hv. pose proof (digits_value_lower m e) as Dl.
  assert (powerRZ 2 (Zpos (digits2_pos m) - 1 + e) < powerRZ 2 k) as L by lra.
  apply powerRZ2_lt_inv in L.
  destruct (bounded_digits m e Hb) as [[Hd He] | [Hd He]]; lia.
Qed.

Lemma binary_round_aux_nonneg (m : positive) (e k : Z) :
  IZR (Zpos m) * powerRZ 2 e < powerRZ 2 k ->
  (k <= 1023)%Z -> (e <= 971)%Z ->
  SFnonneg (binary_round_aux prec emax false (Zpos m) e loc_Exact) = true.
Proof.
  intros Hv Hk He. rewrite binary_round_aux_exact. cbv zeta.
  pose proof (digits_value_lower m e) as Dl.
  assert (Hd : (Zpos (digits2_pos m) + e <= k)%Z).
  { assert (powerRZ 2 (Zpos (digits2_pos m) - 1 + e) < powerRZ 2 k) as L by lra.
    apply powerRZ2_lt_inv in L. lia. }
  rewrite fexp64_eq.
  destruct (Z.ltb_spec 0 (Z.max (Zpos (digits2_pos m) + e - 53) (-1074) - e)) as [Hn | Hn].
  - destruct (_ =? _)%Z; apply finish_nonneg; try lia.
    apply round_shift_nonneg; lia.
  - apply finish_nonneg; lia.
Qed.

(** The product of two non-negative binary64 numbers below [2^kx] and
    [2^ky] is finite, non-negative and within half a unit in the last
    place of the exact product. *)
Lemma SFmul_error (x y : spec_float) (kx ky : Z) :
  valid_binary x = true -> valid_binary y = true ->
  SFnonneg x = true -> SFnonneg y = true ->
  SF2R x < powerRZ 2 kx -> SF2R y < powerRZ 2 ky ->
  (kx <= 1024)%Z -> (ky <= 1024)%Z -> (kx + ky <= 1023)%Z ->
  SFnonneg (SFmul prec emax x y) = true /\
  Rabs (SF2R (SFmul prec emax x y) - SF2R x * SF2R y)
    <= powerRZ 2 (Z.max (kx + ky - 53) (-1074) - 1).
Proof.
  intros Vx Vy Nx Ny Bx By Kx Ky K.
  assert (Zero : forall e, Rabs (0 - 0) <= powerRZ 2 e).
  { intros e. rewrite Rminus_diag, Rabs_R0. apply Rlt_le, powerRZ2_pos. }
  destruct x as [sx | | | [|] mx ex], y as [sy | | | [|] my ey]; try discriminate;
    cbn [SFmul SF2R SFnonneg cond_Zopp xorb].
  1-3: split; [reflexivity | rewrite ?Rmult_0_l, ?Rmult_0_r; apply Zero].
  cbn [SF2R cond_Zopp valid_binary] in *.
  assert (P : IZR (Zpos (mx * my)) * powerRZ 2 (ex + ey) =
              IZR (Zpos mx) * powerRZ 2 ex * (IZR (Zpos my) * powerRZ 2 ey)).
  { rewrite Pos2Z.inj_mul, mult_IZR, powerRZ2_add. ring. }
  assert (L : IZR (Zpos (mx * my)) * powerRZ 2 (ex + ey) < powerRZ 2 (kx + ky)).
  { rewrite P, powerRZ2_add.
    apply Rmult_le_0_lt_compat; try assumption;
      (apply Rmult_le_pos; [apply IZR_le; lia | apply Rlt_le, powerRZ2_pos]). }
  pose proof (bounded_exponent mx ex kx Vx Bx).
  pose proof (bounded_exponent my ey ky Vy By).
  split.
  - apply binary_round_aux_nonneg with (k := (kx + ky)%Z); [assumption | lia | lia].
  - rewrite <- P. apply binary_round_aux_error; [assumption | lia | lia].
Qed.

(** ** The constant pi

    The rational partial sums of [PiSeries] are the real partial sums of
    the standard library's series, which enclose [PI / 4]. *)

Lemma Q2R_Qpow (x : Q) (n : nat) : Q2R (Qpow x n) = Q2R x ^ n.
Proof.
  induction n as [| n IH]; cbn [Qpow pow].
  - unfold Q2R; cbn. lra.
  - now rewrite Q2R_mult, IH.
Qed.

Lemma Q2R_inject_Z (z : Z) : Q2R (inject_Z z) = IZR z.
Proof. unfold Q2R; cbn. lra. Qed.

Lemma inject_Z_nonzero (n : nat) : ~ (inject_Z (Z.of_nat (2 * n + 1)) == 0)%Q.
Proof. unfold Qeq; cbn [Qnum Qden inject_Z]. lia. Qed.

Lemma Q2R_Qatan_seq (x : Q) (n : nat) :
  Q2R (Qatan_seq x n) = Ratan_seq (Q2R x) n.
Proof.
  unfold Qatan_seq, Ratan_seq.
  rewrite Q2R_div by apply inject_Z_nonzero.
  now rewrite Q2R_Qpow, Q2R_inject_Z, <- INR_IZR_INZ.
Qed.

Lemma Q2R_third : Q2R (1 # 3) = / 3.
Proof. unfold Q2R; cbn. lra. Qed.

Lemma Q2R_seventh : Q2R (1 # 7) = / 7.
Proof. unfold Q2R; cbn. lra. Qed.

Lemma Q2R_Qmachin_tg (n : nat) :
  Q2R (Qmachin_tg n) = tg_alt PI_2_3_7_tg n.
Proof.
  unfold Qmachin_tg, tg_alt, PI_2_3_7_tg.
  rewrite Q2R_mult, Q2R_plus, Q2R_mult, Q2R_Qpow, !Q2R_Qatan_seq.
  rewrite Q2R_third, Q2R_seventh.
  replace (Q2R (-1)) with (-1) by (unfold Q2R; cbn; lra).
  replace (Q2R 2) with 2 by (unfold Q2R; cbn; lra).
  reflexivity.
Qed.

Lemma Q2R_Qmachin_sum (N : nat) :
  Q2R (Qmachin_sum N) = sum_f_R0 (tg_alt PI_2_3_7_tg) N.
Proof.
  induction N as [| N IH]; cbn [Qmachin_sum sum_f_R0].
  - apply Q2R_Qmachin_tg.
  - now rewrite Q2R_plus, IH, Q2R_Qmachin_tg.
Qed.

(** [math.Pi] is within [2^-52] of the real number pi. *)
Lemma Pi_Q_error :
  Q2R Pi_Q - / IZR (2 ^ 52) <= PI <= Q2R Pi_Q + / IZR (2 ^ 52).
Proof.
  destruct (PI_2_3_7_ineq 8) as [Lo Hi].
  rewrite <- !Q2R_Qmachin_sum in Lo, Hi.
  assert (L : (Pi_Q - (1 # 4503599627370496) <= 4 * Qmachin_sum (S (2 * 8)))%Q).
  { apply Qle_bool_iff. vm_compute. reflexivity. }
  assert (U : (4 * Qmachin_sum (2 * 8) <= Pi_Q + (1 # 4503599627370496))%Q).
  { apply Qle_bool_iff. vm_compute. reflexivity. }
  apply Qle_Rle in L, U.
  rewrite Q2R_minus, Q2R_mult in L. rewrite Q2R_plus, Q2R_mult in U.
  replace (Q2R 4) with 4 in L, U by (unfold Q2R; cbn; lra).
  replace (Q2R (1 # 4503599627370496)) with (/ IZR (2 ^ 52)) in L, U
    by (unfold Q2R; cbn; lra).
  lra.
Qed.

Lemma powerRZ2_neg (p : positive) : powerRZ 2 (Zneg p) = / IZR (2 ^ Zpos p).
Proof.
  change (Zneg p) with (- Zpos p)%Z. rewrite powerRZ_neg', pow2_IZR by lia.
  reflexivity.
Qed.

Lemma F2R_Pi : F2R Pi = Q2R Pi_Q.
Proof.
  unfold F2R. change (Prim2SF Pi) with (S754_finite false 7074237752028440 (-51)).
  cbn [SF2R cond_Zopp]. rewrite (powerRZ2_neg 51). reflexivity.
Qed.

Lemma Pi_error : Rabs (F2R Pi - PI) <= / IZR (2 ^ 52).
Proof. rewrite F2R_Pi. apply Rabs_le. pose proof Pi_Q_error. lra. Qed.

Lemma F2R_Pi_bounds : 3 < F2R Pi < 3.1416.
Proof.
  rewrite F2R_Pi. unfold Pi_Q, Q2R; cbn [Qnum Qden]. lra.
Qed.

Lemma F2R_two_Pi : F2R (2 * Pi) = 2 * F2R Pi.
Proof.
  unfold F2R.
  change (Prim2SF (2 * Pi)) with (S754_finite false 7074237752028440 (-50)).
  change (Prim2SF Pi) with (S754_finite false 7074237752028440 (-51)).
  cbn [SF2R cond_Zopp]. rewrite (powerRZ2_pred (-50)). 
  change (-50 - 1)%Z with (-51)%Z. ring.
Qed.

Lemma product_bound (d x delta bound : R) :
  Rabs d <= delta -> 0 <= x <= bound -> Rabs (d * x) <= delta * bound.
Proof.
  intros Hd [H0 Hx]. rewrite Rabs_mult, (Rabs_pos_eq x) by assumption.
  apply Rmult_le_compat; [apply Rabs_pos | | |]; assumption.
Qed.

(** The product of two non-negative floats, at the level of [float]. *)
Lemma mul_error (x y : float) (kx ky : Z) :
  SFnonneg (Prim2SF x) = true -> SFnonneg (Prim2SF y) = true ->
  F2R x < powerRZ 2 kx -> F2R y < powerRZ 2 ky ->
  (kx <= 1024)%Z -> (ky <= 1024)%Z -> (kx + ky <= 1023)%Z ->
  SFnonneg (Prim2SF (x * y)) = true /\
  Rabs (F2R (x * y) - F2R x * F2R y)
    <= powerRZ 2 (Z.max (kx + ky - 53) (-1074) - 1).
Proof.
  intros. unfold F2R. rewrite mul_spec.
  apply SFmul_error; try assumption; apply Prim2SF_valid.
Qed.

(** ** Circles of radius at most a million *)

Lemma million_value :
  IZR 8589934592000000 * powerRZ 2 (-33) = 1000000.
Proof.
  rewrite (powerRZ2_neg 33). change (2 ^ 33)%Z with 8589934592%Z. lra.
Qed.

Lemma radius_range (r : float) :
  (0 <=? r)%float = true -> (r <=? 1000000)%float = true ->
  SFnonneg (Prim2SF r) = true /\ 0 <= F2R r <= 1000000.
Proof.
  rewrite !leb_spec. unfold F2R.
  change (Prim2SF 0) with (S754_zero false).
  change (Prim2SF 1000000) with (S754_finite false 8589934592000000 (-33)).
  pose proof (Prim2SF_valid r) as V.
  destruct (Prim2SF r) as [s | [|] | | [|] m e];
    unfold SFleb; cbn [SFcompare SFnonneg SF2R cond_Zopp]; intros H0 H.
  - split; [reflexivity | lra].
  - exfalso. apply diff_false_true, H0.
  - exfalso. apply diff_false_true, H.
  - exfalso. apply diff_false_true, H0.
  - exfalso. apply diff_false_true, H0.
  - split; [reflexivity |]. split.
    + apply Rmult_le_pos; [apply IZR_le; lia | apply Rlt_le, powerRZ2_pos].
    + cbn [valid_binary] in V.
      destruct (Z.compare_spec e (-33)) as [-> | L | G].
      * apply Rle_trans with (IZR 8589934592000000 * powerRZ 2 (-33));
          [| apply Req_le, million_value].
        apply Rmult_le_compat_r; [apply Rlt_le, powerRZ2_pos |].
        apply IZR_le.
        destruct (Pos.compare_cont Eq m 8589934592000000) eqn:E.
        -- apply Pos.compare_eq in E. subst m. lia.
        -- clear V H H0. pose proof (proj1 (Pos.compare_lt_iff m 8589934592000000)) as L.
           specialize (L E).
           apply Pos2Z.pos_lt_pos in L. apply Z.lt_le_incl, L.
        -- exfalso. apply diff_false_true, H.
      * pose proof (digits_value_upper m e) as U.
        assert (powerRZ 2 (Zpos (digits2_pos m) + e) <= powerRZ 2 19) as P.
        { apply powerRZ2_le. destruct (bounded_digits m e V) as [[Hd _] | [Hd _]]; lia. }
        rewrite <- (pow2_IZR 19) in P by lia.
        change (2 ^ 19)%Z with 524288%Z in P. lra.
      * exfalso. apply diff_false_true, H.
Qed.

Lemma Rabs_le_inv (a b : R) : Rabs a <= b -> - b <= a <= b.
Proof. unfold Rabs. destruct (Rcase_abs a); lra. Qed.

Lemma nonneg_is_finite (x : float) :
  SFnonneg (Prim2SF x) = true -> is_finite x = true.
Proof. intros H. rewrite is_finite_spec. now apply SFnonneg_finite. Qed.

Lemma powerRZ2_nat (n : Z) : (0 <= n)%Z -> powerRZ 2 n = IZR (2 ^ n).
Proof. intros H. symmetry. now apply pow2_IZR. Qed.

(** [Circle.Perimeter] on a radius between 0 and a million. *)
Lemma Circle_Perimeter_error (r : float) :
  (0 <=? r)%float = true -> (r <=? 1000000)%float = true ->
  approx (Circle_Perimeter {| Radius := r |}) (2 * PI * F2R r) (/ 1000).
Proof.
  intros H0 H1. destruct (radius_range r H0 H1) as [N [R0 R1]].
  unfold Circle_Perimeter; cbn [Radius].
  pose proof F2R_Pi_bounds as [Pl Pu]. pose proof F2R_two_Pi as T.
  destruct (mul_error (2 * Pi) r 3 20) as [Np E]; try lia; try assumption.
  - reflexivity.
  - rewrite T, (powerRZ2_nat 3) by lia. change (2 ^ 3)%Z with 8%Z. lra.
  - rewrite (powerRZ2_nat 20) by lia. change (2 ^ 20)%Z with 1048576%Z. lra.
  - split; [now apply nonneg_is_finite |].
    change (Z.max (3 + 20 - 53) (-1074) - 1)%Z with (-31)%Z in E.
    rewrite (powerRZ2_neg 31) in E. change (2 ^ 31)%Z with 2147483648%Z in E.
    rewrite T in E. apply Rabs_le_inv in E.
    pose proof (product_bound (F2R Pi - PI) (F2R r) _ 1000000 Pi_error (conj R0 R1)) as D.
    change (2 ^ 52)%Z with 4503599627370496%Z in D.
    apply Rabs_le_inv in D. apply Rabs_le. lra.
Qed.

(** [Circle.Area] on a radius between 0 and a million. *)
Lemma Circle_Area_error (r : float) :
  (0 <=? r)%float = true -> (r <=? 1000000)%float = true ->
  approx (Circle_Area {| Radius := r |}) (PI * (F2R r * F2R r)) (/ 1000).
Proof.
  intros H0 H1. destruct (radius_range r H0 H1) as [N [R0 R1]].
  unfold Circle_Area; cbn [Radius].
  pose proof F2R_Pi_bounds as [Pl Pu].
  destruct (mul_error Pi r 2 20) as [Nt Et]; try lia; try assumption.
  - reflexivity.
  - rewrite (powerRZ2_nat 2) by lia. change (2 ^ 2)%Z with 4%Z. lra.
  - rewrite (powerRZ2_nat 20) by lia. change (2 ^ 20)%Z with 1048576%Z. lra.
  - change (Z.max (2 + 20 - 53) (-1074) - 1)%Z with (-32)%Z in Et.
    rewrite (powerRZ2_neg 32) in Et. change (2 ^ 32)%Z with 4294967296%Z in Et.
    apply Rabs_le_inv in Et.
    assert (Pr : F2R Pi * F2R r <= 3.1416 * 1000000).
    { apply Rmult_le_compat; lra. }
    destruct (mul_error (Pi * r) r 22 20) as [Na Ea]; try lia; try assumption.
    + rewrite (powerRZ2_nat 22) by lia. change (2 ^ 22)%Z with 4194304%Z. lra.
    + rewrite (powerRZ2_nat 20) by lia. change (2 ^ 20)%Z with 1048576%Z. lra.
    + split; [now apply nonneg_is_finite |].
      change (Z.max (22 + 20 - 53) (-1074) - 1)%Z with (-12)%Z in Ea.
      rewrite (powerRZ2_neg 12) in Ea. change (2 ^ 12)%Z with 4096%Z in Ea.
      apply Rabs_le_inv in Ea.
      pose proof (product_bound (F2R (Pi * r) - F2R Pi * F2R r) (F2R r)
                    (/ 4294967296) 1000000 (Rabs_le _ _ Et) (conj R0 R1)) as D1.
      assert (Sq : 0 <= F2R r * F2R r <= 1000000 * 1000000).
      { split; [apply Rmult_le_pos; lra | apply Rmult_le_compat; lra]. }
      pose proof (product_bound (F2R Pi - PI) (F2R r * F2R r) _ _ Pi_error Sq) as D2.
      change (2 ^ 52)%Z with 4503599627370496%Z in D2.
      apply Rabs_le_inv in D1, D2. apply Rabs_le. lra.
Qed.

(** [math.Pi] lies below pi by more than [10^-16]. *)
Lemma Pi_below_PI : Q2R Pi_Q + / 10000000000000000 <= PI.
Proof.
  destruct (PI_2_3_7_ineq 8) as [Lo _].
  rewrite <- Q2R_Qmachin_sum in Lo.
  assert (L : (Pi_Q + (1 # 10000000000000000) <= 4 * Qmachin_sum (S (2 * 8)))%Q).
  { apply Qle_bool_iff. vm_compute. reflexivity. }
  apply Qle_Rle in L. rewrite Q2R_plus, Q2R_mult in L.
  replace (Q2R 4) with 4 in L by (unfold Q2R; cbn; lra).
  replace (Q2R (1 # 10000000000000000)) with (/ 10000000000000000) in L
    by (unfold Q2R; cbn; lra).
  lra.
Qed.


(** ** Relative error of products *)

Lemma finite_value_pos (m : positive) (e : Z) : 0 < IZR (Zpos m) * powerRZ 2 e.
Proof. apply Rmult_lt_0_compat; [apply IZR_lt; lia | apply powerRZ2_pos]. Qed.

(** On valid positive numbers the comparison of [SpecFloat] is the order
    of the real values. *)
Lemma SFleb_value (m1 m2 : positive) (e1 e2 : Z) :
  SpecFloat.bounded prec emax m1 e1 = true ->
  SpecFloat.bounded prec emax m2 e2 = true ->
  SFleb (S754_finite false m1 e1) (S754_finite false m2 e2) = true ->
  IZR (Zpos m1) * powerRZ 2 e1 <= IZR (Zpos m2) * powerRZ 2 e2.
Proof.
  intros V1 V2. unfold SFleb; cbn [SFcompare].
  destruct (Z.compare_spec e1 e2) as [-> | L | G]; intros H.
  - apply Rmult_le_compat_r; [apply Rlt_le, powerRZ2_pos |]. apply IZR_le.
    destruct (Pos.compare_cont Eq m1 m2) eqn:E.
    + apply Pos.compare_eq in E. subst m1. apply Z.le_refl.
    + clear V1 V2 H. pose proof (proj1 (Pos.compare_lt_iff m1 m2) E) as Lt.
      apply Pos2Z.pos_lt_pos in Lt. apply Z.lt_le_incl, Lt.
    + exfalso. apply diff_false_true, H.
  - clear H. pose proof (digits_value_upper m1 e1) as U.
    pose proof (digits_value_lower m2 e2) as Lo.
    assert (powerRZ 2 (Zpos (digits2_pos m1) + e1)
            <= powerRZ 2 (Zpos (digits2_pos m2) - 1 + e2)) as P.
    { apply powerRZ2_le.
      destruct (bounded_digits m1 e1 V1) as [[? ?] | [? ?]],
               (bounded_digits m2 e2 V2) as [[? ?] | [? ?]]; lia. }
    lra.
  - exfalso. apply diff_false_true, H.
Qed.

(** A float between two positive finite floats is positive and finite, and
    its value lies between theirs. *)
Lemma positive_range (lo hi r : float) :
  0 < F2R lo -> 0 < F2R hi ->
  (lo <=? r)%float = true -> (r <=? hi)%float = true ->
  F2R lo <= F2R r <= F2R hi /\ 0 < F2R r.
Proof.
  unfold F2R. rewrite !leb_spec.
  pose proof (Prim2SF_valid lo) as Vl. pose proof (Prim2SF_valid hi) as Vh.
  pose proof (Prim2SF_valid r) as Vr.
  destruct (Prim2SF lo) as [? | ? | | [|] ml el]; cbn [SF2R cond_Zopp];
    intros Pl; try (exfalso; lra).
  { exfalso. pose proof (finite_value_pos ml el). rewrite opp_IZR in Pl. lra. }
  destruct (Prim2SF hi) as [? | ? | | [|] mh eh]; cbn [SF2R cond_Zopp];
    intros Ph; try (exfalso; lra).
  { exfalso. pose proof (finite_value_pos mh eh). rewrite opp_IZR in Ph. lra. }
  destruct (Prim2SF r) as [? | [|] | | [|] m e]; intros H1 H2;
    try (exfalso; apply diff_false_true; assumption).
  cbn [SF2R cond_Zopp valid_binary] in *.
  split; [split; apply SFleb_value; assumption | apply finite_value_pos].
Qed.

Lemma F2R_pos_finite (x : float) :
  0 < F2R x -> exists m e, Prim2SF x = S754_finite false m e.
Proof.
  unfold F2R. destruct (Prim2SF x) as [? | ? | | [|] m e]; cbn [SF2R cond_Zopp];
    intros H; try (exfalso; lra); [| eauto].
  exfalso. pose proof (finite_value_pos m e). rewrite opp_IZR in H. lra.
Qed.

(** The product of two positive binary64 numbers whose exact product is
    in the normal range is finite and within a relative error of
    [2^-53]. *)
Lemma mul_rel_error (x y : float) :
  0 < F2R x -> 0 < F2R y ->
  powerRZ 2 (-1022) <= F2R x * F2R y -> F2R x * F2R y < powerRZ 2 1023 ->
  is_finite (x * y) = true /\
  Rabs (F2R (x * y) - F2R x * F2R y) <= powerRZ 2 (-53) * (F2R x * F2R y).
Proof.
  intros Px Py.
  destruct (F2R_pos_finite x Px) as (mx & ex & Ex).
  destruct (F2R_pos_finite y Py) as (my & ey & Ey).
  pose proof (Prim2SF_valid x) as Vx. pose proof (Prim2SF_valid y) as Vy.
  unfold F2R. rewrite is_finite_spec, mul_spec, Ex, Ey in *.
  cbn [SF2R cond_Zopp valid_binary SFmul xorb] in *. clear Px Py.
  assert (P : IZR (Zpos (mx * my)) * powerRZ 2 (ex + ey) =
              IZR (Zpos mx) * powerRZ 2 ex * (IZR (Zpos my) * powerRZ 2 ey)).
  { rewrite Pos2Z.inj_mul, mult_IZR, powerRZ2_add. ring. }
  rewrite <- P. intros Lo Hi.
  pose proof (digits_value_lower (mx * my) (ex + ey)) as Dl.
  pose proof (digits_value_upper (mx * my) (ex + ey)) as Du.
  pose proof (digits2_pos_mul mx my) as [Dm _].
  set (d := Zpos (digits2_pos (mx * my))) in *.
  assert (D1 : (-1022 < d + (ex + ey))%Z).
  { apply powerRZ2_lt_inv. lra. }
  assert (D2 : (d - 1 + (ex + ey) < 1023)%Z).
  { apply powerRZ2_lt_inv. lra. }
  assert (He : (ex + ey <= 971)%Z).
  { destruct (bounded_digits mx ex Vx) as [[? ?] | [? ?]],
             (bounded_digits my ey Vy) as [[? ?] | [? ?]]; lia. }
  destruct (binary_round_aux_error (mx * my) (ex + ey) (d + (ex + ey)) Du
              ltac:(lia) He) as [F E].
  split; [exact F |].
  eapply Rle_trans; [exact E |].
  replace (Z.max (d + (ex + ey) - 53) (-1074) - 1)%Z
    with (-53 + (d - 1 + (ex + ey)))%Z by lia.
  rewrite powerRZ2_add.
  apply Rmult_le_compat_l; [apply Rlt_le, powerRZ2_pos | exact Dl].
Qed.

(** ** Radii and sides between [2^-500] and [2^500] *)

Lemma F2R_low : F2R 0x1p-500 = powerRZ 2 (-500).
Proof.
  unfold F2R.
  change (Prim2SF 0x1p-500) with (S754_finite false 4503599627370496 (-552)).
  cbn [SF2R cond_Zopp]. change (Zpos 4503599627370496) with (2 ^ 52)%Z.
  rewrite pow2_IZR, <- powerRZ2_add by lia. reflexivity.
Qed.

Lemma F2R_high : F2R 0x1p500 = powerRZ 2 500.
Proof.
  unfold F2R.
  change (Prim2SF 0x1p500) with (S754_finite false 4503599627370496 448).
  cbn [SF2R cond_Zopp]. change (Zpos 4503599627370496) with (2 ^ 52)%Z.
  rewrite pow2_IZR, <- powerRZ2_add by lia. reflexivity.
Qed.

Lemma powerRZ2_lt (a b : Z) : (a < b)%Z -> powerRZ 2 a < powerRZ 2 b.
Proof.
  intros H. pose proof (powerRZ2_le a (b - 1) ltac:(lia)).
  pose proof (powerRZ2_pred b). pose proof (powerRZ2_pos (b - 1)). lra.
Qed.

(** The range [2^-500 .. 2^500] of the accuracy theorems. *)
Lemma wide_range (x : float) :
  (0x1p-500 <=? x)%float = true -> (x <=? 0x1p500)%float = true ->
  powerRZ 2 (-500) <= F2R x <= powerRZ 2 500 /\ 0 < F2R x.
Proof.
  intros H0 H1. rewrite <- F2R_low, <- F2R_high.
  apply positive_range; try assumption.
  - rewrite F2R_low. apply powerRZ2_pos.
  - rewrite F2R_high. apply powerRZ2_pos.
Qed.

Lemma product_range (x y : R) (a b c d : Z) :
  powerRZ 2 a <= x <= powerRZ 2 b -> powerRZ 2 c <= y <= powerRZ 2 d ->
  powerRZ 2 (a + c) <= x * y <= powerRZ 2 (b + d).
Proof.
  intros [Xl Xu] [Yl Yu]. rewrite !powerRZ2_add.
  pose proof (powerRZ2_pos a). pose proof (powerRZ2_pos c).
  split; apply Rmult_le_compat; lra.
Qed.

Lemma Rectangle_Area_accuracy (w h : float) :
  (0x1p-500 <=? w)%float = true -> (w <=? 0x1p500)%float = true ->
  (0x1p-500 <=? h)%float = true -> (h <=? 0x1p500)%float = true ->
  approx (Rectangle_Area {| Width := w; Height := h |})
         (F2R w * F2R h) (powerRZ 2 (-53) * (F2R w * F2R h)).
Proof.
  intros W0 W1 H0 H1.
  destruct (wide_range w W0 W1) as [Rw Pw], (wide_range h H0 H1) as [Rh Ph].
  pose proof (product_range _ _ _ _ _ _ Rw Rh) as [Lo Hi].
  unfold Rectangle_Area, approx; cbn [Width Height].
  apply mul_rel_error; try assumption.
  - eapply Rle_trans; [| exact Lo]. apply powerRZ2_le. lia.
  - eapply Rle_lt_trans; [exact Hi |]. apply powerRZ2_lt. lia.
Qed.

Lemma Circle_Perimeter_accuracy (r : float) :
  (0x1p-500 <=? r)%float = true -> (r <=? 0x1p500)%float = true ->
  approx (Circle_Perimeter {| Radius := r |}) (2 * PI * F2R r)
         (2 * PI * F2R r / 1000000000000000).
Proof.
  intros H0 H1. destruct (wide_range r H0 H1) as [[Rl Ru] Pr].
  unfold Circle_Perimeter; cbn [Radius].
  pose proof F2R_Pi_bounds as [Pl Pu]. pose proof F2R_two_Pi as T.
  assert (B : 3 * F2R r < F2R Pi * F2R r < 3.1416 * F2R r).
  { split; apply Rmult_lt_compat_r; assumption. }
  pose proof (powerRZ2_le (-1022) (-500) ltac:(lia)) as L1.
  pose proof (powerRZ2_lt 503 1023 ltac:(lia)) as L2.
  pose proof (powerRZ2_add 3 500) as L3. change (3 + 500)%Z with 503%Z in L3.
  rewrite (powerRZ2_nat 3) in L3 by lia. change (2 ^ 3)%Z with 8%Z in L3.
  destruct (mul_rel_error (2 * Pi) r) as [F E]; rewrite ?T; try lra.
  split; [exact F |].
  rewrite T, (powerRZ2_neg 53) in E.
  change (2 ^ 53)%Z with 9007199254740992%Z in E.
  apply Rabs_le_inv in E.
  pose proof (product_bound (F2R Pi - PI) (F2R r) _ (F2R r) Pi_error
                ltac:(lra)) as D.
  change (2 ^ 52)%Z with 4503599627370496%Z in D.
  apply Rabs_le_inv in D. apply Rabs_le. lra.
Qed.

Lemma Circle_Area_accuracy (r : float) :
  (0x1p-500 <=? r)%float = true -> (r <=? 0x1p500)%float = true ->
  approx (Circle_Area {| Radius := r |}) (PI * (F2R r * F2R r))
         (PI * (F2R r * F2R r) / 1000000000000000).
Proof.
  intros H0 H1. destruct (wide_range r H0 H1) as [[Rl Ru] Pr].
  unfold Circle_Area; cbn [Radius].
  pose proof F2R_Pi_bounds as [Pl Pu].
  assert (B : 3 * F2R r < F2R Pi * F2R r < 3.1416 * F2R r).
  { split; apply Rmult_lt_compat_r; assumption. }
  pose proof (powerRZ2_le (-1022) (-500) ltac:(lia)) as L1.
  pose proof (powerRZ2_lt 502 1023 ltac:(lia)) as L2.
  pose proof (powerRZ2_add 2 500) as L3. change (2 + 500)%Z with 502%Z in L3.
  rewrite (powerRZ2_nat 2) in L3 by lia. change (2 ^ 2)%Z with 4%Z in L3.
  destruct (mul_rel_error Pi r) as [Ft Et]; try lra.
  rewrite (powerRZ2_neg 53) in Et.
  change (2 ^ 53)%Z with 9007199254740992%Z in Et.
  apply Rabs_le_inv in Et.
  assert (Rt : powerRZ 2 (-500) <= F2R (Pi * r) <= powerRZ 2 502) by lra.
  pose proof (product_range _ _ _ _ _ _ Rt (conj Rl Ru)) as [Lo Hi].
  pose proof (powerRZ2_le (-1022) (-500 + -500) ltac:(lia)) as L4.
  pose proof (powerRZ2_lt (502 + 500) 1023 ltac:(lia)) as L5.
  destruct (mul_rel_error (Pi * r) r) as [Fa Ea]; try lra.
  split; [exact Fa |].
  rewrite (powerRZ2_neg 53) in Ea.
  change (2 ^ 53)%Z with 9007199254740992%Z in Ea.
  apply Rabs_le_inv in Ea.
  assert (Sq : 0 < F2R r * F2R r) by (apply Rmult_lt_0_compat; assumption).
  assert (B2 : 3 * (F2R r * F2R r) < F2R Pi * (F2R r * F2R r)
               < 3.1416 * (F2R r * F2R r)).
  { split; apply Rmult_lt_compat_r; assumption. }
  pose proof (product_bound (F2R (Pi * r) - F2R Pi * F2R r) (F2R r)
                (/ 9007199254740992 * (F2R Pi * F2R r)) (F2R r)
                (Rabs_le _ _ Et) ltac:(lra)) as D1.
  pose proof (product_bound (F2R Pi - PI) (F2R r * F2R r) _ (F2R r * F2R r)
                Pi_error ltac:(lra)) as D2.
  change (2 ^ 52)%Z with 4503599627370496%Z in D2.
  apply Rabs_le_inv in D1, D2. apply Rabs_le. lra.
Qed.

End RealFacts.

Import Shapes Binary64 Binary64Facts PiSeries RealFacts.
Local Open Scope float_scope.

(** * The shapes *)

(** ** Reading results through [SpecFloat] *)

Lemma Prim2SF_zero : Prim2SF 0 = S754_zero false.
Proof. reflexivity. Qed.

Lemma SFltb_zero_negative (x : spec_float) :
  SFltb x (S754_zero false) = true ->
  x = S754_infinity true \/ exists m e, x = S754_finite true m e.
Proof.
  destruct x as [s | [|] | | [|] m e]; cbn; try discriminate; eauto.
Qed.

Lemma sqrt_negative_is_nan (x : float) :
  (x <? 0) = true -> is_nan (sqrt x) = true.
Proof.
  intros H. rewrite ltb_spec, Prim2SF_zero in H.
  unfold is_nan. rewrite eqb_spec, sqrt_spec.
  destruct (SFltb_zero_negative _ H) as [-> | (m & e & ->)]; reflexivity.
Qed.

Lemma SFadd_comm (prec emax : Z) (x y : spec_float) :
  SFadd prec emax x y = SFadd prec emax y x.
Proof.
  destruct x as [sx | sx | | sx mx ex], y as [sy | sy | | sy my ey];
    cbn; try reflexivity; try (now destruct sx, sy).
  now rewrite Z.min_comm, Z.add_comm.
Qed.

Lemma add_comm (x y : float) : x + y = y + x.
Proof.
  apply Prim2SF_inj. rewrite !add_spec. apply SFadd_comm.
Qed.

Lemma float_neq (x y : float) : Prim2SF x <> Prim2SF y -> x <> y.
Proof. intros H E. apply H. now rewrite E. Qed.

(** ** Circle *)

(** [Pi] is the binary64 number nearest to the decimal constant of Go's
    package [math]: they differ by less than half a unit in the last
    place, which is [2^-52] for numbers between 2 and 4. *)
Lemma Pi_nearest_to_math_Pi :
  Prim2SF Pi = S754_finite false 7074237752028440 (-51) /\
  (Z.abs (2 * 7074237752028440 * 10 ^ 62 - math_Pi_digits * 2 ^ 52)
   < 10 ^ 62)%Z.
Proof. split; [reflexivity | vm_compute; reflexivity]. Qed.

(** Doubling [Pi] is exact, so [2 * Pi] is the conversion of the constant
    expression [2 * math.Pi]. *)
Lemma two_Pi_exact :
  Prim2SF (2 * Pi) = S754_finite false 7074237752028440 (-50).
Proof. reflexivity. Qed.

(** C3, as stated, fails: for a large radius the product [Pi * r * r]
    overflows, and the infinity returned approximates no real number. *)
Lemma C3_circle_area_overflow :
  exists r : float,
    is_finite r = true /\ (0 <=? r) = true /\
    Circle_Area {| Radius := r |} = infinity /\
    forall tol : R,
      ~ approx (Circle_Area {| Radius := r |}) (PI * (F2R r * F2R r)) tol.
Proof.
  exists 0x1p600. repeat split; try reflexivity.
  intros tol [F _]. vm_compute in F. discriminate F.
Qed.

(** Without any overflow the absolute tolerance is already missed at
    radius [2^22 = 4194304]: the area is [Pi * 2^44] exactly, and [Pi] is
    more than [10^-16] below pi. *)
Lemma circle_area_off_at_4194304 :
  (0 <=? 0x1p22) = true /\
  is_finite (Circle_Area {| Radius := 0x1p22 |}) = true /\
  ~ approx (Circle_Area {| Radius := 0x1p22 |})
      (PI * (F2R 0x1p22 * F2R 0x1p22)) (/ 1000).
Proof.
  split; [reflexivity | split; [reflexivity |]].
  intros [_ E]. apply Rabs_le_inv in E. revert E. unfold F2R.
  change (Prim2SF (Circle_Area {| Radius := 0x1p22 |}))
    with (S754_finite false 7074237752028440 (-7)).
  change (Prim2SF 0x1p22) with (S754_finite false 4503599627370496 (-30)).
  cbn [SF2R cond_Zopp]. rewrite (powerRZ2_neg 7), (powerRZ2_neg 30).
  change (2 ^ 7)%Z with 128%Z. change (2 ^ 30)%Z with 1073741824%Z.
  pose proof Pi_below_PI as L. unfold Pi_Q, Q2R in L. cbn [Qnum Qden] in L.
  intros E. lra.
Qed.

(** C3, amended: for a radius between 0 and a million both results are
    finite and within one thousandth of [2 pi r] and [pi r^2]; for radius
    0 both are exactly 0. *)
Theorem C3_circle_within_tolerance (r : float) :
  (0 <=? r) = true -> (r <=? 1000000) = true ->
  approx (Circle_Perimeter {| Radius := r |}) (2 * PI * F2R r) (/ 1000) /\
  approx (Circle_Area {| Radius := r |}) (PI * (F2R r * F2R r)) (/ 1000) /\
  Circle_Perimeter {| Radius := 0 |} = 0 /\
  Circle_Area {| Radius := 0 |} = 0.
Proof.
  intros H0 H1. split; [| split; [| split]].
  - now apply Circle_Perimeter_error.
  - now apply Circle_Area_error.
  - reflexivity.
  - reflexivity.
Qed.

Lemma C3_circle_within_tolerance_witness :
  approx (Circle_Perimeter {| Radius := 5 |}) (2 * PI * F2R 5) (/ 1000) /\
  approx (Circle_Area {| Radius := 5 |}) (PI * (F2R 5 * F2R 5)) (/ 1000) /\
  Circle_Perimeter {| Radius := 0 |} = 0 /\
  Circle_Area {| Radius := 0 |} = 0.
Proof.
  apply (C3_circle_within_tolerance 5); vm_compute; reflexivity.
Defined.

(** ** Triangle *)

(** C1: [Triangle.Area] is Heron's formula: with [p] the perimeter divided
    by two, the area is the square root of [p*(p-a)*(p-b)*(p-c)], the
    products taken left to right, every operation correctly rounded. *)
Theorem C1_triangle_area_heron (a b c : float) :
  let t := {| A := a; B := b; C := c |} in
  let p := Triangle_Perimeter t / 2 in
  Triangle_Area t = sqrt (p * (p - a) * (p - b) * (p - c)) /\
  Prim2SF (Triangle_Area t) = SFheron (Prim2SF a) (Prim2SF b) (Prim2SF c).
Proof.
  intros t p. split.
  - unfold Triangle_Area. fold p. reflexivity.
  - unfold Triangle_Area, Triangle_Perimeter, SFheron, t; cbn [A B C].
    now rewrite sqrt_spec, !mul_spec, !sub_spec, div_spec, !add_spec.
Qed.

Lemma Triangle_Area_radicand (t : Triangle) :
  Triangle_Area t = sqrt (radicand t).
Proof. reflexivity. Qed.

(** C2, as stated, fails: the sides [2^52], [2^52 - 1] and [2^53] are
    positive and do not satisfy the triangle inequality, and their exact
    Heron radicand is negative; but the perimeter [2^54 - 1] rounds to
    [2^54], the factor [p - c] is zero, and the area is 0. *)
Lemma C2_invalid_triangle_area_zero :
  exists t : Triangle,
    finite_sides t = true /\ positive_sides t = true /\
    violates_triangle_inequality t /\ (exact_radicand t < 0)%R /\
    (A t + B t <? C t) = true /\
    (radicand t <? 0) = false /\
    is_nan (Triangle_Area t) = false /\ Triangle_Area t = 0.
Proof.
  exists {| A := 4503599627370496; B := 4503599627370495;
            C := 9007199254740992 |}.
  assert (Ea : F2R 4503599627370496 = 4503599627370496%R).
  { unfold F2R.
    change (Prim2SF 4503599627370496) with (S754_finite false 4503599627370496 0).
    cbn [SF2R cond_Zopp powerRZ]. lra. }
  assert (Eb : F2R 4503599627370495 = 4503599627370495%R).
  { unfold F2R.
    change (Prim2SF 4503599627370495) with (S754_finite false 9007199254740990 (-1)).
    cbn [SF2R cond_Zopp]. rewrite (powerRZ2_neg 1). change (2 ^ 1)%Z with 2%Z. lra. }
  assert (Ec : F2R 9007199254740992 = 9007199254740992%R).
  { unfold F2R.
    change (Prim2SF 9007199254740992) with (S754_finite false 4503599627370496 1).
    cbn [SF2R cond_Zopp]. rewrite powerRZ2_1. lra. }
  repeat split; try reflexivity.
  - left. cbn [A B C]. rewrite Ea, Eb, Ec. lra.
  - unfold exact_radicand; cbn [A B C]. rewrite Ea, Eb, Ec. lra.
Qed.

(** C2, amended: when the Heron radicand as computed in binary64 is
    negative, [Triangle.Area] returns a not-a-number value; the function
    is total, so nothing is raised. *)
Theorem C2_triangle_area_nan (t : Triangle) :
  (radicand t <? 0) = true ->
  exists v : float, Triangle_Area t = v /\ is_nan v = true.
Proof.
  intros H. eexists; split; [reflexivity |].
  now apply sqrt_negative_is_nan.
Qed.

Lemma C2_triangle_area_nan_witness :
  exists v : float,
    Triangle_Area {| A := 1; B := 1; C := 3 |} = v /\ is_nan v = true.
Proof.
  apply (C2_triangle_area_nan {| A := 1; B := 1; C := 3 |}).
  vm_compute. reflexivity.
Defined.

(** The condition of C2 is on the radicand as computed: for tiny sides
    that violate the triangle inequality the product underflows to [-0],
    which is not negative, and the area is [-0]. *)
Lemma tiny_sides_radicand_underflows :
  let t := {| A := 0x1p-300; B := 0x1p-300; C := 0x1p-298 |} in
  (A t + B t <? C t) = true /\
  (radicand t <? 0) = false /\
  Prim2SF (Triangle_Area t) = S754_zero true.
Proof. vm_compute. repeat split; reflexivity. Qed.

(** No range of magnitudes is safe: for sides near 1 whose shortest is
    below the rounding error the radicand rounds to [-0], and for sides
    near the largest numbers the perimeter overflows and the area is
    [+Inf].  With negative sides the area can even be a positive number. *)
Lemma invalid_sides_at_other_scales :
  let t1 := {| A := 1; B := 0x1p-80; C := 0x1.0000000000001p0 |} in
  let t2 := {| A := 0x1p1022; B := 0x1p1022; C := 0x1.8p1023 |} in
  let t3 := {| A := -1; B := -1; C := -1 |} in
  (positive_sides t1 = true /\ (A t1 + B t1 <? C t1) = true /\
   Prim2SF (Triangle_Area t1) = S754_zero true) /\
  (positive_sides t2 = true /\ (A t2 + B t2 <? C t2) = true /\
   Triangle_Area t2 = infinity) /\
  ((A t3 + B t3 <? C t3) = true /\ (0 <? Triangle_Area t3) = true /\
   is_finite (Triangle_Area t3) = true).
Proof. vm_compute. repeat split; reflexivity. Qed.

(** C4: [Triangle.Perimeter] is the binary64 sum [a + b + c], taken left
    to right; it is a total function, and for sides that are neither
    infinite nor not-a-number its result is a number too (possibly an
    infinity, when the sum overflows). *)
Theorem C4_triangle_perimeter (a b c : float) :
  let t := {| A := a; B := b; C := c |} in
  Triangle_Perimeter t = a + b + c /\
  (finite_sides t = true -> is_nan (Triangle_Perimeter t) = false).
Proof.
  cbv zeta. split; [reflexivity |].
  unfold finite_sides, Triangle_Perimeter; cbn [A B C].
  rewrite !is_finite_spec, is_nan_spec, !add_spec.
  intros H. apply andb_prop in H as [H Hc]. apply andb_prop in H as [Ha Hb].
  apply SFadd_not_nan; [| assumption].
  apply SFadd_not_nan; [| assumption].
  now apply SFfinite_not_nan.
Qed.

Lemma C4_triangle_perimeter_witness :
  Triangle_Perimeter {| A := 3; B := 4; C := 5 |} = 3 + 4 + 5 /\
  is_nan (Triangle_Perimeter {| A := 3; B := 4; C := 5 |}) = false.
Proof.
  destruct (C4_triangle_perimeter 3 4 5) as [E N].
  split; [exact E | apply N; vm_compute; reflexivity].
Defined.

(** The sum of finite sides can overflow: the perimeter is then [+Inf]. *)
Lemma perimeter_overflow :
  let t := {| A := 0x1p1023; B := 0x1p1023; C := 1 |} in
  finite_sides t = true /\ Triangle_Perimeter t = infinity.
Proof. vm_compute. split; reflexivity. Qed.

(** C6: the 3-4-5 triangle has perimeter exactly 12 and an area within
    0.001 of 6 (it is 6 exactly). *)
Theorem C6_triangle_3_4_5 :
  let t := {| A := 3; B := 4; C := 5 |} in
  Triangle_Perimeter t = 12 /\
  within_tolerance (Triangle_Area t) 6 = true /\
  Triangle_Area t = 6.
Proof. vm_compute. repeat split; reflexivity. Qed.

(** [tolerance] is the binary64 number nearest to one thousandth. *)
Lemma tolerance_nearest_to_thousandth :
  Prim2SF tolerance = S754_finite false 4611686018427388 (-62) /\
  (Z.abs (2 * (1000 * 4611686018427388 - 2 ^ 62)) < 1000)%Z.
Proof. split; [reflexivity | vm_compute; reflexivity]. Qed.

(** C9, as stated, fails: binary64 addition is not associative, so moving
    the large side from first to last place changes the perimeter. *)
Lemma C9_perimeter_not_symmetric :
  exists t t' : Triangle,
    sides_permuted t t' /\ Triangle_Perimeter t <> Triangle_Perimeter t'.
Proof.
  exists {| A := 0x1p53; B := 1; C := 1 |}, {| A := 1; B := 1; C := 0x1p53 |}.
  split.
  - unfold sides_permuted; cbn.
    eapply perm_trans; [apply perm_swap | apply perm_skip, perm_swap].
  - apply float_neq. vm_compute. discriminate.
Qed.

(** Exchanging the first two sides changes the last digits of the area of
    the triangle with sides 3, 4 and 2.7: the factors [p-a] and [p-b] are
    then multiplied in the other order. *)
Lemma area_not_symmetric :
  exists t t' : Triangle,
    sides_permuted t t' /\ Triangle_Area t <> Triangle_Area t'.
Proof.
  exists {| A := 3; B := 4; C := 0x1.599999999999ap+1 |},
         {| A := 4; B := 3; C := 0x1.599999999999ap+1 |}.
  split.
  - unfold sides_permuted; cbn. apply perm_swap.
  - apply float_neq. vm_compute. discriminate.
Qed.

(** C9, amended: the perimeter is unchanged when the first two sides are
    exchanged, because binary64 addition is commutative. *)
Theorem C9_perimeter_swap_AB (a b c : float) :
  Triangle_Perimeter {| A := a; B := b; C := c |} =
  Triangle_Perimeter {| A := b; B := a; C := c |}.
Proof.
  unfold Triangle_Perimeter; cbn. now rewrite (add_comm a b).
Qed.

(** C10, as stated, fails: when the product [p * (p-a)] overflows, the
    zero factor [p - c] meets an infinity and the area is not-a-number. *)
Lemma C10_degenerate_area_nan :
  exists t : Triangle,
    finite_sides t = true /\ nonneg_sides t = true /\
    (A t + B t =? C t) = true /\
    is_nan (Triangle_Area t) = true /\ (Triangle_Area t =? 0) = false.
Proof.
  exists {| A := 0x1p600; B := 0x1p600; C := 0x1p601 |}.
  vm_compute. repeat split; reflexivity.
Qed.

Lemma Triangle_Area_unfold (t : Triangle) :
  Triangle_Area t = sqrt (partial_product t * (semi t - C t)).
Proof. reflexivity. Qed.

Lemma Prim2SF_semi (t : Triangle) :
  Prim2SF (semi t) =
  SFdiv prec emax (SFadd prec emax (Prim2SF (A t + B t)) (Prim2SF (C t))) SFtwo.
Proof.
  unfold semi, Triangle_Perimeter. now rewrite div_spec, add_spec.
Qed.

(** A degenerate triangle has area zero as soon as the product of the
    first three Heron factors did not overflow, whatever the signs. *)
Lemma degenerate_area_zero (t : Triangle) :
  (A t + B t =? C t) = true ->
  is_finite (partial_product t) = true ->
  SFzero (Prim2SF (Triangle_Area t)) = true.
Proof.
  intros Hd Hf. rewrite eqb_spec in Hd. rewrite is_finite_spec in Hf.
  rewrite Triangle_Area_unfold, sqrt_spec, mul_spec, sub_spec.
  apply SFsqrt_zero, SFmul_zero_r; [assumption |].
  rewrite Prim2SF_semi.
  apply SFsemi_degenerate; [apply Prim2SF_valid | assumption |].
  rewrite <- Prim2SF_semi.
  unfold partial_product in Hf. rewrite !mul_spec in Hf.
  apply SFmul_finite_inv in Hf as [Hf _].
  now apply SFmul_finite_inv in Hf as [Hf _].
Qed.

(** Conversely, once the product of the first three factors is an
    infinity or not-a-number, the area is not-a-number or [+Inf], for
    every triangle. *)
Lemma area_not_zero_after_overflow (t : Triangle) :
  is_finite (partial_product t) = false ->
  (Triangle_Area t =? 0) = false /\
  (is_nan (Triangle_Area t) = true \/ Triangle_Area t = infinity).
Proof.
  intros Hf. rewrite is_finite_spec in Hf.
  rewrite eqb_spec, is_nan_spec.
  assert (E : Prim2SF (Triangle_Area t) = S754_nan \/
              Prim2SF (Triangle_Area t) = S754_infinity false).
  { rewrite Triangle_Area_unfold, sqrt_spec, mul_spec.
    destruct (Prim2SF (partial_product t)) as [s | s | | s m e];
      try discriminate Hf;
      destruct (Prim2SF (semi t - C t)) as [s' | s' | | s' m' e'];
      cbn; try (now left); destruct s, s'; cbn; auto. }
  destruct E as [E | E]; rewrite E; split; try reflexivity; [now left |].
  right. apply Prim2SF_inj. now rewrite E.
Qed.

(** C10, amended: a triangle with non-negative sides and [a + b == c] has
    area zero whenever the product [p * (p-a) * (p-b)] is finite. *)
Theorem C10_degenerate_area_zero (t : Triangle) :
  nonneg_sides t = true ->
  (A t + B t =? C t) = true ->
  is_finite (partial_product t) = true ->
  (Triangle_Area t =? 0) = true /\ is_nan (Triangle_Area t) = false.
Proof.
  intros _ Hd Hf. pose proof (degenerate_area_zero t Hd Hf) as Hz.
  rewrite eqb_spec, is_nan_spec.
  split; [now apply SFzero_eqb | now destruct (Prim2SF (Triangle_Area t))].
Qed.

Lemma C10_degenerate_area_zero_witness :
  (Triangle_Area {| A := 1; B := 2; C := 3 |} =? 0) = true /\
  is_nan (Triangle_Area {| A := 1; B := 2; C := 3 |}) = false.
Proof.
  apply (C10_degenerate_area_zero {| A := 1; B := 2; C := 3 |});
    vm_compute; reflexivity.
Defined.

(** ** Rectangle *)

(** C5: [Rectangle.Perimeter] is twice the sum of width and height and
    [Rectangle.Area] is their product. *)
Theorem C5_rectangle (w h : float) :
  Rectangle_Perimeter {| Width := w; Height := h |} = 2 * (w + h) /\
  Rectangle_Area {| Width := w; Height := h |} = w * h.
Proof. split; reflexivity. Qed.

(** C7: the 6-by-4 rectangle has perimeter exactly 20 and area exactly 24;
    the 5-by-5 square has perimeter exactly 20 and area exactly 25. *)
Theorem C7_rectangle_examples :
  Rectangle_Perimeter {| Width := 6; Height := 4 |} = 20 /\
  Rectangle_Area {| Width := 6; Height := 4 |} = 24 /\
  Rectangle_Perimeter {| Width := 5; Height := 5 |} = 20 /\
  Rectangle_Area {| Width := 5; Height := 5 |} = 25.
Proof. vm_compute. repeat split; reflexivity. Qed.

(** ** Any shape *)







(** Two calls on one value whose result is not-a-number return the same
    not-a-number, which [==] does not hold equal to itself. *)
Lemma nan_result_not_equal_to_itself :
  let t := {| A := 1; B := 1; C := 3 |} in
  is_nan (Triangle_Area t) = true /\
  (Triangle_Area t =? Triangle_Area t) = false.
Proof. vm_compute. split; reflexivity. Qed.



(** * Further properties of the shapes *)

(** ** Reading the circle through [SpecFloat] *)

Lemma mul_comm (x y : float) : x * y = y * x.
Proof. apply Prim2SF_inj. rewrite !mul_spec. apply SFmul_comm. Qed.

Lemma Prim2SF_Pi : Prim2SF Pi = S754_finite false 7074237752028440 (-51).
Proof. reflexivity. Qed.

Lemma Prim2SF_two : Prim2SF 2 = SFtwo.
Proof. reflexivity. Qed.

Lemma Prim2SF_Circle_Perimeter (r : float) :
  Prim2SF (Circle_Perimeter {| Radius := r |}) =
  SFmul prec emax (S754_finite false 7074237752028440 (-50)) (Prim2SF r).
Proof.
  unfold Circle_Perimeter; cbn [Radius].
  rewrite mul_spec. now change (Prim2SF (2 * Pi))
    with (S754_finite false 7074237752028440 (-50)).
Qed.

Lemma Prim2SF_Circle_Area (r : float) :
  Prim2SF (Circle_Area {| Radius := r |}) =
  SFmul prec emax
    (SFmul prec emax (S754_finite false 7074237752028440 (-51)) (Prim2SF r))
    (Prim2SF r).
Proof. unfold Circle_Area; cbn [Radius]. now rewrite !mul_spec, Prim2SF_Pi. Qed.

Lemma is_nan_true (x : float) : is_nan x = true -> Prim2SF x = S754_nan.
Proof. rewrite is_nan_spec. now destruct (Prim2SF x). Qed.

Lemma nan_is_nan (x : float) : Prim2SF x = S754_nan -> is_nan x = true.
Proof. intros H. now rewrite is_nan_spec, H. Qed.

Lemma Circle_is_nan (r : float) :
  is_nan (Circle_Perimeter {| Radius := r |}) = is_nan r /\
  is_nan (Circle_Area {| Radius := r |}) = is_nan r.
Proof.
  rewrite !is_nan_spec, Prim2SF_Circle_Perimeter, Prim2SF_Circle_Area.
  destruct (SFnan (Prim2SF r)) eqn:N.
  - destruct (Prim2SF r); try discriminate N. split; reflexivity.
  - destruct (SFnan_signbit _ N) as [s Hs]. split.
    + apply (SFsignbit_not_nan _ (xorb false s)), SFmul_finite_l_signbit, Hs.
    + apply (SFsignbit_not_nan _ false), (SFsquare_signbit _ _ _ s), Hs.
Qed.

Lemma Triangle_Area_is_nan (t : Triangle) :
  is_nan (Triangle_Area t) = is_nan (radicand t) || (radicand t <? 0).
Proof.
  rewrite Triangle_Area_radicand, !is_nan_spec, ltb_spec, sqrt_spec.
  apply SFsqrt_nan.
Qed.

Lemma exceeds_tolerance_eq (got want : float) :
  exceeds_tolerance got want =
  negb (within_tolerance got want) && negb (is_nan (got - want)).
Proof.
  unfold exceeds_tolerance, within_tolerance.
  rewrite ltb_spec, leb_spec, is_nan_spec, abs_spec, SFltb_leb, SFabs_nan.
  reflexivity.
Qed.

Lemma nan_passes_tolerance (got want : float) :
  is_nan got = true ->
  exceeds_tolerance got want = false /\ differs got want = true.
Proof.
  intros H. apply is_nan_true in H. unfold differs.
  rewrite exceeds_tolerance_eq, is_nan_spec, sub_spec, eqb_spec, H.
  split; [| reflexivity].
  change (SF64sub S754_nan (Prim2SF want)) with S754_nan.
  apply andb_false_r.
Qed.

(** ** Circle *)

(** X1: a circle of radius [-r] has the perimeter of the circle of radius
    [r] with the sign changed, and the same area, bit for bit.  The code
    accepts a negative radius and answers with a negative perimeter. *)
Theorem circle_parity (r : float) :
  Circle_Perimeter {| Radius := - r |} = - Circle_Perimeter {| Radius := r |} /\
  Circle_Area {| Radius := - r |} = Circle_Area {| Radius := r |}.
Proof.
  split; apply Prim2SF_inj.
  - now rewrite opp_spec, !Prim2SF_Circle_Perimeter, opp_spec, SFmul_opp_r.
  - rewrite !Prim2SF_Circle_Area, opp_spec.
    now rewrite !SFmul_opp_r, SFmul_opp_l, SFopp_involutive.
Qed.

(** X2: the perimeter and the area of a circle are not-a-number exactly
    when the radius is: no radius that is a number, infinite ones
    included, makes either method return not-a-number. *)
Theorem circle_nan (r : float) :
  is_nan (Circle_Perimeter {| Radius := r |}) = is_nan r /\
  is_nan (Circle_Area {| Radius := r |}) = is_nan r.
Proof. apply Circle_is_nan. Qed.

(** X3: the area of a circle is never negative: it compares at least
    zero for every radius that is a number, whatever its sign. *)
Theorem circle_area_not_negative (r : float) :
  (0 <=? Circle_Area {| Radius := r |}) = negb (is_nan r) /\
  (Circle_Area {| Radius := r |} <? 0) = false.
Proof.
  rewrite leb_spec, ltb_spec, is_nan_spec, Prim2SF_Circle_Area.
  change (Prim2SF 0) with (S754_zero false).
  destruct (SFnan (Prim2SF r)) eqn:N.
  - destruct (Prim2SF r); try discriminate N. split; reflexivity.
  - destruct (SFnan_signbit _ N) as [s Hs].
    pose proof (SFsquare_signbit 7074237752028440 (-51) _ s Hs) as S.
    split; [now apply SFleb_zero_signbit | now apply SFltb_zero_signbit].
Qed.

(** X4: the perimeter of a circle has the sign of the radius: it is
    negative exactly for a negative radius and positive exactly for a
    positive one.  In particular it never underflows to zero, even for
    the smallest subnormal radius. *)
Theorem circle_perimeter_sign (r : float) :
  (Circle_Perimeter {| Radius := r |} <? 0) = (r <? 0) /\
  (0 <? Circle_Perimeter {| Radius := r |}) = (0 <? r).
Proof.
  rewrite !ltb_spec, Prim2SF_Circle_Perimeter.
  change (Prim2SF 0) with (S754_zero false).
  apply (SFmul_constant_ltb 7074237752028440 (-50) (Prim2SF r));
    [reflexivity | lia | apply Prim2SF_valid].
Qed.

(** X5: for a radius between [2^-500] and [2^500] both results are finite
    and within a relative error of [10^-15] of [2 pi r] and [pi r^2]. *)
Theorem circle_relative_accuracy (r : float) :
  (0x1p-500 <=? r) = true -> (r <=? 0x1p500) = true ->
  approx (Circle_Perimeter {| Radius := r |}) (2 * PI * F2R r)
         (2 * PI * F2R r / 1000000000000000) /\
  approx (Circle_Area {| Radius := r |}) (PI * (F2R r * F2R r))
         (PI * (F2R r * F2R r) / 1000000000000000).
Proof.
  intros H0 H1. split.
  - now apply Circle_Perimeter_accuracy.
  - now apply Circle_Area_accuracy.
Qed.

Lemma circle_relative_accuracy_witness :
  approx (Circle_Perimeter {| Radius := 5 |}) (2 * PI * F2R 5)
         (2 * PI * F2R 5 / 1000000000000000) /\
  approx (Circle_Area {| Radius := 5 |}) (PI * (F2R 5 * F2R 5))
         (PI * (F2R 5 * F2R 5) / 1000000000000000).
Proof.
  apply (circle_relative_accuracy 5); vm_compute; reflexivity.
Defined.

(** ** Triangle *)

(** X6: the area of a triangle is not-a-number exactly when the Heron
    radicand, as computed, is not-a-number or negative. *)
Theorem triangle_area_nan_iff (t : Triangle) :
  is_nan (Triangle_Area t) = is_nan (radicand t) || (radicand t <? 0).
Proof. apply Triangle_Area_is_nan. Qed.

(** X7: the area of a triangle is never negative, whatever the sides. *)
Theorem triangle_area_not_negative (t : Triangle) :
  (Triangle_Area t <? 0) = false.
Proof.
  rewrite Triangle_Area_radicand, ltb_spec, sqrt_spec. apply SFsqrt_not_negative.
Qed.

(** X8: for sides that are at least zero, [+Inf] allowed, the perimeter
    of a triangle is at least zero and is a number. *)
Theorem triangle_perimeter_not_negative (t : Triangle) :
  nonneg_sides t = true ->
  (0 <=? Triangle_Perimeter t) = true /\ is_nan (Triangle_Perimeter t) = false.
Proof.
  unfold nonneg_sides, Triangle_Perimeter. rewrite !leb_spec, is_nan_spec, !add_spec.
  change (Prim2SF 0) with (S754_zero false). rewrite !SFleb_zero_not_negative.
  intros H. apply andb_prop in H as [H Hc]. apply andb_prop in H as [Ha Hb].
  pose proof (SFadd_not_negative _ _ (SFadd_not_negative _ _ Ha Hb) Hc) as N.
  split; [assumption | now apply SFnot_negative_not_nan].
Qed.

Lemma triangle_perimeter_not_negative_witness :
  (0 <=? Triangle_Perimeter {| A := 3; B := 4; C := infinity |}) = true /\
  is_nan (Triangle_Perimeter {| A := 3; B := 4; C := infinity |}) = false.
Proof.
  apply (triangle_perimeter_not_negative {| A := 3; B := 4; C := infinity |}).
  vm_compute. reflexivity.
Defined.

(** ** Rectangle *)

(** X9: exchanging width and height changes neither result of a
    rectangle, bit for bit. *)
Theorem rectangle_swap (w h : float) :
  Rectangle_Perimeter {| Width := h; Height := w |} =
  Rectangle_Perimeter {| Width := w; Height := h |} /\
  Rectangle_Area {| Width := h; Height := w |} =
  Rectangle_Area {| Width := w; Height := h |}.
Proof.
  unfold Rectangle_Perimeter, Rectangle_Area; cbn [Width Height].
  now rewrite (add_comm h w), (mul_comm h w).
Qed.

(** X10: the doubling in [Rectangle.Perimeter] is exact: the result is
    the rounded sum [w + h] added to itself, so the only rounding error
    of the perimeter is that of the one addition. *)
Theorem rectangle_perimeter_doubling (w h : float) :
  Rectangle_Perimeter {| Width := w; Height := h |} = (w + h) + (w + h).
Proof.
  unfold Rectangle_Perimeter; cbn [Width Height]. apply Prim2SF_inj.
  rewrite mul_spec, (add_spec (w + h)), Prim2SF_two.
  apply SFmul_two, Prim2SF_valid.
Qed.

(** X11: for a width and a height between [2^-500] and [2^500] the area
    of a rectangle is finite and within a relative error of [2^-53] of
    the exact product. *)
Theorem rectangle_area_accuracy (w h : float) :
  (0x1p-500 <=? w) = true -> (w <=? 0x1p500) = true ->
  (0x1p-500 <=? h) = true -> (h <=? 0x1p500) = true ->
  approx (Rectangle_Area {| Width := w; Height := h |})
         (F2R w * F2R h) (powerRZ 2 (-53) * (F2R w * F2R h)).
Proof. intros. now apply Rectangle_Area_accuracy. Qed.

Lemma rectangle_area_accuracy_witness :
  approx (Rectangle_Area {| Width := 6; Height := 4 |})
         (F2R 6 * F2R 4) (powerRZ 2 (-53) * (F2R 6 * F2R 4)).
Proof.
  apply (rectangle_area_accuracy 6 4); vm_compute; reflexivity.
Defined.

(** ** Any shape *)

(** X12: a shape with a field that is not-a-number has a perimeter and an
    area that are not-a-number. *)
Theorem nan_propagates (s : AnyShape) :
  existsb is_nan (fields s) = true ->
  is_nan (Perimeter s) = true /\ is_nan (Area s) = true.
Proof.
  destruct s as [[r] | [a b c] | [w h]]; cbn [fields existsb Perimeter Area
    AnyShape_Shape Circle_Shape Triangle_Shape Rectangle_Shape
    Radius A B C Width Height];
    rewrite ?orb_false_r; intros H.
  - now rewrite (proj1 (Circle_is_nan r)), (proj2 (Circle_is_nan r)).
  - assert (P : Prim2SF (Triangle_Perimeter {| A := a; B := b; C := c |}) = S754_nan).
    { unfold Triangle_Perimeter; cbn [A B C]. rewrite !add_spec.
      apply orb_prop in H as [H | H]; [| apply orb_prop in H as [H | H]];
        apply is_nan_true in H; rewrite H;
        now rewrite ?SFadd_nan_l, ?SFadd_nan_r. }
    split; [now apply nan_is_nan |].
    apply nan_is_nan. unfold Triangle_Area.
    rewrite sqrt_spec, !mul_spec, div_spec, P, SFdiv_nan_l.
    now rewrite !SFmul_nan_l.
  - assert (S : Prim2SF w = S754_nan \/ Prim2SF h = S754_nan).
    { apply orb_prop in H as [H | H]; apply is_nan_true in H; auto. }
    split; apply nan_is_nan; unfold Rectangle_Perimeter, Rectangle_Area;
      cbn [Width Height]; rewrite ?mul_spec, ?add_spec;
      destruct S as [-> | ->];
      now rewrite ?SFadd_nan_l, ?SFadd_nan_r, ?SFmul_nan_l, ?SFmul_nan_r.
Qed.

Lemma nan_propagates_witness :
  is_nan (Perimeter (OfTriangle {| A := 3; B := nan; C := 5 |})) = true /\
  is_nan (Area (OfTriangle {| A := 3; B := nan; C := 5 |})) = true.
Proof.
  apply (nan_propagates (OfTriangle {| A := 3; B := nan; C := 5 |})).
  vm_compute. reflexivity.
Defined.

(** ** The checks of the tests *)

(** X13: the tolerance check of the tests, [math.Abs(got-want) > 0.001],
    reports a failure exactly when the difference is a number and is not
    within the tolerance: a difference that is not-a-number passes. *)
Theorem tolerance_check (got want : float) :
  exceeds_tolerance got want =
  negb (within_tolerance got want) && negb (is_nan (got - want)).
Proof. apply exceeds_tolerance_eq. Qed.

(** X14: the area of a triangle whose radicand is negative passes the
    tolerance check of [TestTriangle] against every wanted value; the
    exact check [!=] used for the perimeters would report it. *)
Theorem invalid_triangle_passes_area_check (t : Triangle) (want : float) :
  (radicand t <? 0) = true ->
  exceeds_tolerance (Triangle_Area t) want = false /\
  differs (Triangle_Area t) want = true.
Proof.
  intros H. apply nan_passes_tolerance.
  rewrite Triangle_Area_is_nan, H. apply orb_true_r.
Qed.

Lemma invalid_triangle_passes_area_check_witness :
  exceeds_tolerance (Triangle_Area {| A := 1; B := 1; C := 3 |}) 6 = false /\
  differs (Triangle_Area {| A := 1; B := 1; C := 3 |}) 6 = true.
Proof.
  apply (invalid_triangle_passes_area_check {| A := 1; B := 1; C := 3 |} 6).
  vm_compute. reflexivity.
Defined.
